(** * consulator: key derivation, configuration parsing driver and export

    A shallow embedding of [consulator.go] (package [main]) and proofs about
    it.  Go strings are byte strings and are modelled by [string]; the
    accumulation map [data map[string][]byte] is a [gmap string bytes].

    Layout: the Go library functions the program calls ([strings.*],
    [filepath.Ext]) come first, then the program state and the small
    state/exit/panic monad the program's effects live in, then
    [parseConfig], [exportData] and [main], and finally the theorems. *)

From Stdlib Require Import String Ascii List ZArith Lia Sorting.Sorted.
From stdpp Require Import base option list strings gmap sorting.

Local Open Scope string_scope.
Local Open Scope list_scope.

(** ** Byte strings *)

(** [s[n:]] and [s[:n]] for [n <= len(s)]. *)
Fixpoint str_drop (n : nat) (s : string) : string :=
  match n, s with
  | O, _ => s
  | S n', String _ s' => str_drop n' s'
  | S _, EmptyString => EmptyString
  end.

Fixpoint str_take (n : nat) (s : string) : string :=
  match n, s with
  | O, _ => EmptyString
  | S n', String c s' => String c (str_take n' s')
  | S _, EmptyString => EmptyString
  end.

(** [s[len(s)-1]], if there is one. *)
Fixpoint last_byte (s : string) : option ascii :=
  match s with
  | EmptyString => None
  | String c EmptyString => Some c
  | String _ s' => last_byte s'
  end.

(** ** Package [strings] of the Go library, as far as the program uses it *)
Module strings.

(** [len(s) >= len(prefix) && s[:len(prefix)] == prefix] *)
Definition HasPrefix (s pre : string) : bool :=
  (String.length pre <=? String.length s)%nat
  && String.eqb (str_take (String.length pre) s) pre.

(** [len(s) >= len(suffix) && s[len(s)-len(suffix):] == suffix] *)
Definition HasSuffix (s suf : string) : bool :=
  (String.length suf <=? String.length s)%nat
  && String.eqb (str_drop (String.length s - String.length suf) s) suf.

(** Removes ONE leading occurrence of [pre], if there is one. *)
Definition TrimPrefix (s pre : string) : string :=
  if HasPrefix s pre then str_drop (String.length pre) s else s.

(** Removes ONE trailing occurrence of [suf], if there is one. *)
Definition TrimSuffix (s suf : string) : string :=
  if HasSuffix s suf then str_take (String.length s - String.length suf) s
  else s.

(** [strings.Split(s, sep)] for a non-empty separator: cut [s] at every
    (leftmost, non-overlapping) occurrence of [sep].  [cur] is the piece
    being read and [skip] counts the bytes of a separator occurrence
    still to be passed over.  The empty-separator mode of the library
    (explode into UTF-8 sequences) is not used by the program and is not
    modelled. *)
Fixpoint split_go (sep : string) (skip : nat) (cur : string) (s : string)
  : list string :=
  match s with
  | EmptyString => [cur]
  | String c s' =>
      match skip with
      | S k => split_go sep k cur s'
      | O =>
          if HasPrefix s sep
          then cur :: split_go sep (String.length sep - 1) EmptyString s'
          else split_go sep O (cur +:+ String c EmptyString) s'
      end
  end.

Definition Split (s sep : string) : list string :=
  split_go sep O EmptyString s.

End strings.

(** ** Package [os] / [path/filepath] *)

(** [os.PathSeparator] on the platforms where it is ['/']. *)
Definition PathSeparator : ascii := "/"%char.

Definition IsPathSeparator (c : ascii) : bool := Ascii.eqb c PathSeparator.

Module filepath.

(** The loop of [filepath.Ext]: [rest] holds [path[0..i]] reversed (so its
    head is [path[i]]) and [acc] is [path[i+1:]].
<<
    for i := len(path) - 1; i >= 0 && !os.IsPathSeparator(path[i]); i-- {
        if path[i] == '.' { return path[i:] }
    }
    return ""
>> *)
Fixpoint ext_scan (rest : list ascii) (acc : string) : string :=
  match rest with
  | [] => EmptyString
  | c :: rest' =>
      if IsPathSeparator c then EmptyString
      else if Ascii.eqb c "."%char then String c acc
      else ext_scan rest' (String c acc)
  end.

Definition Ext (path : string) : string :=
  ext_scan (rev (list_ascii_of_string path)) EmptyString.

End filepath.

(** ** Data of the program *)

Abbreviation bytes := (list Byte.byte).

(** A Go [error] value that is not [nil]; [option error] is a Go [error]. *)
Definition error := string.

(** What the program asks of an [os.FileInfo]: [f.Mode().IsRegular()]. *)
Record FileMode := { IsRegular : bool }.
Record FileInfo := { Mode : FileMode }.

(** An open [*os.File]; [option File] is the pointer, [None] being [nil]. *)
Inductive File :=
| Stdin
| OpenFile (name : string).

(** The [io.Reader]s handed to [parseJson]: a file pointer, or the read end
    of the [io.Pipe] with the bytes written to it before it was closed. *)
Inductive Reader :=
| FileReader (fp : option File)
| PipeReader (written : bytes).

(** Modelled from the spec: [kvExportEntry] and [toExportEntry] are declared
    in a file of the repository other than consulator.go.  The spec's export
    entry is "{key: string, value: base64-or-plain string}", "each carrying
    at minimum the key and a store-native encoded value"; [encodeValue] is
    that encoding. *)
Record kvExportEntry := { Key : string; Value : string }.

Definition toExportEntry (encodeValue : bytes -> string)
    (key : string) (val : bytes) : kvExportEntry :=
  {| Key := key; Value := encodeValue val |}.

(** The loggers [Trace], [Debug], [Info], [Warning], [Error]. *)
Inductive Level := TraceL | DebugL | InfoL | WarningL | ErrorL.

Inductive Arg :=
| AStr (s : string)
| AStrs (l : list string)
| ANat (n : nat)
| AErr (e : option error).

(** Everything the process does to the outside, in order. *)
Inductive Event :=
| Log (lvl : Level) (fmt : string) (args : list Arg)
| Usage
| Opened (path : string)
| Transcoded (fp : option File)
| Parsed (r : Reader) (keyPrefix : list string)
| Stdout (out : string)
| Synced.

(** The command line after [flag.Parse()]. *)
Record Flags := {
  debug : bool;
  dump : bool;
  format : string;
  prefix : string;
  glue : string;
  sync : bool;
  trace : bool;
  quiet : bool
}.

(** The package-level variables that [main] and [parseConfig] share, and the
    events so far (oldest first).  [g_prefix] is [*prefix] once [main] has
    cleaned it up. *)
Record State := {
  g_prefix : string;
  path : string;
  absPath : string;
  nArgs : nat;
  data : gmap string bytes;
  events : list Event
}.

(** ** The effects: state, [os.Exit] and run-time panics *)

Inductive Outcome (A : Type) :=
| Ret (a : A) (s : State)
| Exit (code : Z) (s : State)
| Panic (s : State).
Arguments Ret {A} a s.
Arguments Exit {A} code s.
Arguments Panic {A} s.

Definition M (A : Type) : Type := State -> Outcome A.

Definition ret {A} (a : A) : M A := fun s => Ret a s.

Definition bind {A B} (m : M A) (k : A -> M B) : M B :=
  fun s =>
    match m s with
    | Ret a s' => k a s'
    | Exit c s' => Exit c s'
    | Panic s' => Panic s'
    end.

(** stdpp's monad notations: [x ← m; k] and [m;; k]. *)
#[global] Instance M_ret : MRet M := @ret.
#[global] Instance M_bind : MBind M := fun A B k m => bind m k.

Definition get : M State := fun s => Ret s s.
Definition put (s : State) : M unit := fun _ => Ret tt s.
Definition os_Exit {A} (code : Z) : M A := fun s => Exit code s.
Definition panic {A} : M A := fun s => Panic s.

Definition emit (e : Event) : M unit :=
  fun s => Ret tt {| g_prefix := g_prefix s; path := path s;
                     absPath := absPath s; nArgs := nArgs s;
                     data := data s; events := events s ++ [e] |}.

Definition set_data (d : gmap string bytes) : M unit :=
  fun s => Ret tt {| g_prefix := g_prefix s; path := path s;
                     absPath := absPath s; nArgs := nArgs s;
                     data := d; events := events s |}.

(** [logger.Printf] / [logger.Println]. *)
Definition Printf (lvl : Level) (fmt : string) (args : list Arg) : M unit :=
  emit (Log lvl fmt args).

(** [Error.Fatal] / [Error.Fatalf]: print, then [os.Exit(1)]. *)
Definition Fatalf {A} (fmt : string) (args : list Arg) : M A :=
  Printf ErrorL fmt args;; os_Exit 1.

(** The exit status of the process. A Go program that returns from [main]
    exits with 0, one that panics exits with 2. *)
Definition exit_code {A} (o : Outcome A) : Z :=
  match o with
  | Ret _ _ => 0
  | Exit c _ => c
  | Panic _ => 2
  end.

Definition final_state {A} (o : Outcome A) : State :=
  match o with
  | Ret _ s | Exit _ s | Panic s => s
  end.

(** The world around one run of the process: library and repository code
    that is not in consulator.go, the file system and the Go runtime. *)
Record World := {
  (** [strings.ToLower] (Unicode-aware in the library). *)
  ToLower : string -> string;
  (** [os.Open]: the file or the error. *)
  os_Open : string -> File + error;
  (** The error of [os.Stat]. *)
  os_Stat : string -> option error;
  (** The [FileInfo] of [os.Stdin.Stat()], [nil] when it fails. *)
  Stdin_Stat : option FileInfo;
  filepath_Abs : string -> string;
  (** The calls [filepath.Walk root fn] makes to [fn], in order, for as long
      as [fn] returns [nil]. *)
  Walk_visits : string -> list (string * option FileInfo * option error);
  (** [parseJson(fp, keyPrefix)] (elsewhere in the repository): the new
      accumulation map and the error it returns. *)
  parseJson : Reader -> list string -> gmap string bytes ->
              gmap string bytes * option error;
  (** [yamlToJson(fp, yamlW)] (elsewhere in the repository): the bytes it
      wrote to the pipe and the error it returns. *)
  yamlToJson : option File -> bytes * option error;
  encodeValue : bytes -> string;
  (** [json.MarshalIndent(exported, "", "\t")]. *)
  MarshalIndent : list (option kvExportEntry) -> string + error;
  (** The order in which this run's [for key, val := range data] yields the
      entries of the map; unspecified by the language. *)
  rangeOrder : gmap string bytes -> list (string * bytes);
  (** [syncConsul()] (elsewhere in the repository). *)
  syncConsul : M unit
}.

(** ** The program *)

(** [main], lines 51-55: "clean up prefix". *)
Definition cleanPrefix (p : string) : string :=
  let p := strings.TrimSuffix (strings.TrimPrefix p "/") "/" in
  if negb (String.eqb p "") then p +:+ "/" else p.

(** [parseConfig], lines 117-126: the value first assigned to [keyPrefix]. *)
Definition splitKey (absPath path : string) : list string :=
  strings.Split
    (strings.TrimPrefix
       (strings.TrimSuffix
          (strings.TrimPrefix path absPath)
          (filepath.Ext path))
       (String PathSeparator ""))
    (String PathSeparator "").

(** [parseConfig], lines 127-130: [keyPrefix[0]] is an indexing of a slice,
    which panics on an empty slice; [None] is that panic. *)
Definition collapseKey (keyPrefix : list string) : option (list string) :=
  match keyPrefix with
  | [] => None
  | k0 :: _ => if String.eqb k0 "" then Some [] else Some keyPrefix
  end.

(** Key derivation as a whole: lines 117-130 of [parseConfig]. *)
Definition deriveKey (absPath path : string) : option (list string) :=
  collapseKey (splitKey absPath path).

(** Which case of the [switch] of [parseConfig] a path takes. *)
Inductive Format := JSON | YAML | PROPERTIES | INI | OTHER.

Definition formatOf (lower : string) : Format :=
  if strings.HasSuffix lower ".json" then JSON
  else if strings.HasSuffix lower ".yml" then YAML
  else if strings.HasSuffix lower ".yaml" then YAML
  else if strings.HasSuffix lower ".properties" then PROPERTIES
  else if strings.HasSuffix lower ".ini" then INI
  else OTHER.

(** [exportData], lines 166-171: the slice of [len(data)] nil pointers and
    the loop that stores entry number [i] at index [i].  A store outside the
    slice is a run-time panic ([None]). *)
Fixpoint exportLoop (enc : bytes -> string) (kvs : list (string * bytes))
    (i : nat) (exported : list (option kvExportEntry))
  : option (list (option kvExportEntry)) :=
  match kvs with
  | [] => Some exported
  | (key, val) :: kvs' =>
      if decide (i < length exported)
      then exportLoop enc kvs' (S i)
             (<[i := Some (toExportEntry enc key val)]> exported)
      else None
  end.

Definition exportSlice (enc : bytes -> string) (len_data : nat)
    (kvs : list (string * bytes)) : option (list (option kvExportEntry)) :=
  exportLoop enc kvs 0 (replicate len_data None).

Section Program.

Variable w : World.

(** [f.Mode()] on a [nil] interface value is a nil dereference. *)
Definition FileInfo_Mode (f : option FileInfo) : M FileMode :=
  match f with
  | Some fi => mret (Mode fi)
  | None => panic
  end.

(** [fp, err = os.Open(path)] *)
Definition Open (p : string) : M (option File * option error) :=
  emit (Opened p);;
  match os_Open w p with
  | inl fp => mret (Some fp, None)
  | inr e => mret (None, Some e)
  end.

(** [err := parseJson(r, keyPrefix)], which works on the global [data]. *)
Definition call_parseJson (r : Reader) (keyPrefix : list string)
  : M (option error) :=
  emit (Parsed r keyPrefix);;
  s ← get;
  let res := parseJson w r keyPrefix (data s) in
  set_data res.1;;
  mret res.2.

(** Lines 144-155.  The transcoder goroutine and the pipe are run in
    sequence: [yamlToJson] first, whose deferred [yamlW.Close()] ends the
    stream with EOF whether or not it failed, then [parseJson] on what was
    written. *)
Definition parseYaml (p : string) (fp : option File)
    (keyPrefix : list string) : M unit :=
  emit (Transcoded fp);;
  let transcoded := yamlToJson w fp in
  match transcoded.2 with
  | Some e => Printf WarningL "%v: %v\n" [AStr p; AErr (Some e)]
  | None => mret tt
  end;;
  err ← call_parseJson (PipeReader transcoded.1) keyPrefix;
  match err with
  | Some e => Printf WarningL "%v: %v\n" [AStr p; AErr (Some e)]
  | None => mret tt
  end.

(** [parseConfig] from line 114 on, with [fp] and [err] as the [if] of
    lines 107-113 left them. *)
Definition parseConfig_rest (p : string) (fp : option File)
    (err : option error) : M (option error) :=
  match err with
  | Some e => Printf WarningL "%v: %v\n" [AStr p; AErr (Some e)]
  | None => mret tt
  end;;
  s ← get;
  keyPrefix ← match deriveKey (absPath s) p with
               | Some k => mret k
               | None => panic
               end;
  Printf DebugL "keyprefix is %v" [AStrs keyPrefix];;
  match formatOf (ToLower w p) with
  | JSON =>
      Printf DebugL "Parsing %s as json" [AStr p];;
      err ← call_parseJson (FileReader fp) keyPrefix;
      match err with
      | Some e => Fatalf "%v: %v\n" [AStr p; AErr (Some e)]
      | None => mret tt
      end
  | YAML =>
      Printf DebugL "Parsing %s as yaml" [AStr p];;
      parseYaml p fp keyPrefix
  | PROPERTIES => Printf DebugL "Parsing %s as properties" [AStr p]
  | INI => Printf DebugL "Parsing %s as ini" [AStr p]
  | OTHER => mret tt
  end;;
  mret None.

Definition parseConfig (p : string) (f : option FileInfo)
    (err : option error) : M (option error) :=
  Printf TraceL "Traversing %s" [AStr p];;
  mode ← FileInfo_Mode f;
  s ← get;
  if IsRegular mode && Nat.eqb (nArgs s) 1 then
    r ← Open p;
    parseConfig_rest p r.1 r.2
  else if Nat.eqb (nArgs s) 0 then
    parseConfig_rest p (Some Stdin) err
  else
    mret None.

(** [filepath.Walk]: the callback is called on each visit in turn, and the
    first error it returns ends the walk and is returned. *)
Fixpoint Walk_go (visits : list (string * option FileInfo * option error))
    (fn : string -> option FileInfo -> option error -> M (option error))
  : M (option error) :=
  match visits with
  | [] => mret None
  | (p, f, e) :: rest =>
      r ← fn p f e;
      match r with
      | Some err => mret (Some err)
      | None => Walk_go rest fn
      end
  end.

Definition Walk (root : string)
    (fn : string -> option FileInfo -> option error -> M (option error))
  : M (option error) :=
  Walk_go (Walk_visits w root) fn.

Definition exportData : M unit :=
  s ← get;
  exported ← match exportSlice (encodeValue w) (size (data s))
                     (rangeOrder w (data s)) with
              | Some e => mret e
              | None => panic
              end;
  match MarshalIndent w exported with
  | inr e => Fatalf "Error exporting data: %s" [AErr (Some e)]
  | inl json => emit (Stdout json);; emit (Stdout "")
  end.

Definition usage : M unit := emit Usage.

Definition main (fl : Flags) (args : list string) : M unit :=
  let pre := cleanPrefix (prefix fl) in
  let n := length args in
  s ← get;
  put {| g_prefix := pre; path := path s; absPath := absPath s; nArgs := n;
         data := ∅; events := events s |};;
  match args with
  | [] =>
      Printf TraceL "No arguments, using stdin instead" [];;
      let fi := Stdin_Stat w in
      if String.eqb (format fl) "json" || String.eqb (format fl) "yaml"
      then
        Printf InfoL "Looking for %s data on stdin.." [AStr (format fl)];;
        err ← parseConfig ("." +:+ format fl) fi None;
        s ← get;
        match err with
        | Some e => Printf ErrorL "%v: %v\n" [AStr (path s); AErr (Some e)]
        | None => mret tt
        end
      else
        Printf ErrorL "When reading from stdin, the -format option must be provided and must be one of: json, yaml\n" [];;
        usage;;
        os_Exit 1
  | [arg0] =>
      let ap := filepath_Abs w arg0 in
      s ← get;
      put {| g_prefix := g_prefix s; path := arg0; absPath := ap;
             nArgs := nArgs s; data := data s; events := events s |};;
      Printf InfoL "Looking for data at %s.." [AStr ap];;
      match os_Stat w ap with
      | Some e => Fatalf "%v" [AErr (Some e)]
      | None => mret tt
      end;;
      err ← Walk ap parseConfig;
      match err with
      | Some e => Fatalf "%v" [AErr (Some e)]
      | None => mret tt
      end
  | _ =>
      Printf ErrorL "1 argument expected, but found %d\n\n" [ANat n];;
      usage;;
      os_Exit 255
  end;;
  s ← get;
  Printf InfoL "Found %d keys" [ANat (size (data s))];;
  (if dump fl then exportData else mret tt);;
  (if sync fl then emit Synced;; syncConsul w else mret tt).

End Program.

(** The package-level variables before [main] runs (Go zero values). *)
Definition initial : State :=
  {| g_prefix := ""; path := ""; absPath := ""; nArgs := 0;
     data := ∅; events := [] |}.

(** One run of the process. *)
Definition run (w : World) (fl : Flags) (args : list string) : Outcome unit :=
  main w fl args initial.

(** ** Reading the events *)

Definition is_work (e : Event) : bool :=
  match e with
  | Opened _ | Transcoded _ | Parsed _ _ | Stdout _ | Synced => true
  | Log _ _ _ | Usage => false
  end.

Definition is_error_log (e : Event) : bool :=
  match e with
  | Log ErrorL _ _ => true
  | _ => false
  end.

Definition is_warning_log (e : Event) : bool :=
  match e with
  | Log WarningL _ _ => true
  | _ => false
  end.

(** No file opened, nothing transcoded, parsed, written or synced, and an
    empty accumulation map. *)
Definition no_work (s : State) : Prop :=
  data s = ∅ ∧ forallb (fun e => negb (is_work e)) (events s) = true.

(** ** What the range loop of [exportData] may yield *)

(** A [for ... range] over a map yields every entry once, in some order. *)
Definition rangeOf (d : gmap string bytes) (kvs : list (string * bytes))
  : Prop :=
  kvs ≡ₚ map_to_list d.

(** The slot the loop fills for one entry of the map. *)
Definition entryOf (enc : bytes -> string) (kv : string * bytes)
  : option kvExportEntry :=
  Some (toExportEntry enc kv.1 kv.2).

Definition keyLe (a b : option kvExportEntry) : Prop :=
  match a, b with
  | Some x, Some y => String.le (Key x) (Key y)
  | _, _ => False
  end.

(** ** The statements of the specification that are compared with the code *)

(** Key derivation as the specification words it: the extension is stripped
    only when it is, case-insensitively, [.json], [.yml] or [.yaml]. *)
Definition recognisedExt (lower : string -> string) (ext : string) : bool :=
  String.eqb (lower ext) ".json" || String.eqb (lower ext) ".yml"
  || String.eqb (lower ext) ".yaml".

Definition splitKey_claimed (lower : string -> string)
    (rootPath filePath : string) : list string :=
  let rel := strings.TrimPrefix filePath rootPath in
  let ext := filepath.Ext filePath in
  let stem := if recognisedExt lower ext then strings.TrimSuffix rel ext
              else rel in
  strings.Split (strings.TrimPrefix stem (String PathSeparator ""))
    (String PathSeparator "").

(** Prefix normalisation as the specification words it: ALL leading and ALL
    trailing separators are stripped. *)
Fixpoint dropLeading (c : ascii) (s : string) : string :=
  match s with
  | EmptyString => EmptyString
  | String a s' => if Ascii.eqb a c then dropLeading c s' else s
  end.

Fixpoint dropTrailing (c : ascii) (s : string) : string :=
  match s with
  | EmptyString => EmptyString
  | String a s' =>
      match dropTrailing c s' with
      | EmptyString => if Ascii.eqb a c then EmptyString else String a EmptyString
      | r => String a r
      end
  end.

Definition cleanPrefix_claimed (p : string) : string :=
  let q := dropTrailing "/" (dropLeading "/" p) in
  if String.eqb q "" then "" else q +:+ "/".

(** An extension name: bytes that are neither a dot nor a separator. *)
Definition extName (e : string) : Prop :=
  Forall (fun c => IsPathSeparator c = false ∧ Ascii.eqb c "." = false)
    (list_ascii_of_string e).

(** The collapse rule as the specification words it. *)
Definition collapse_claimed (absPath path : string) : Prop :=
  (deriveKey absPath path = Some [] ↔ splitKey absPath path = [""])
  ∧ (∀ ks, deriveKey absPath path = Some ks → "" ∈ ks → ks = [""]).

(** Modelled from the spec: the decode step of the Normalizer (4.2), which
    "fails with ParseError [...] when the source is not syntactically valid".
    A stream that ends before its first byte holds no JSON value, so it is
    never a Document: this is what keeps the Flattener from observing "a
    partially transcoded document as though it were complete" (5) when the
    transcoder has closed the pipe without writing.  Every other source is
    left to [normalize]. *)
Definition decode {Document : Type}
    (normalize : Reader -> Document + error) (r : Reader)
  : Document + error :=
  match r with
  | PipeReader [] => inr "unexpected end of JSON input"
  | _ => normalize r
  end.

(** Modelled from the spec: [parseJson] is defined in a file of the
    repository other than consulator.go.  The spec's Normalizer (4.2) turns
    the source into a Document or fails with a ParseError; only then does
    the Flattener (4.3) add whole entries to the map.  A source that does
    not parse therefore leaves the map as it was. *)
Definition parseJson_spec {Document : Type}
    (normalize : Reader -> Document + error)
    (flatten : Document -> list string -> gmap string bytes ->
               gmap string bytes)
    (r : Reader) (keyPrefix : list string) (d : gmap string bytes)
  : gmap string bytes * option error :=
  match decode normalize r with
  | inl doc => (flatten doc keyPrefix d, None)
  | inr e => (d, Some e)
  end.

(** Modelled from the spec: [yamlToJson] is defined in a file of the
    repository other than consulator.go.  The spec (4.2, 5, 9) has the YAML
    source transcoded to the JSON representation or fail, the decoder never
    seeing "a partially transcoded document as though it were complete": on
    failure nothing reaches the pipe. *)
Definition yamlToJson_spec (transcode : option File -> bytes + error)
    (fp : option File) : bytes * option error :=
  match transcode fp with
  | inl json => (json, None)
  | inr e => ([], Some e)
  end.



Definition with_parsers (w : World)
    (pj : Reader -> list string -> gmap string bytes ->
          gmap string bytes * option error)
    (yj : option File -> bytes * option error) : World :=
  {| ToLower := ToLower w; os_Open := os_Open w; os_Stat := os_Stat w;
     Stdin_Stat := Stdin_Stat w; filepath_Abs := filepath_Abs w;
     Walk_visits := Walk_visits w; parseJson := pj; yamlToJson := yj;
     encodeValue := encodeValue w; MarshalIndent := MarshalIndent w;
     rangeOrder := rangeOrder w; syncConsul := syncConsul w |}.

(** ** A small concrete world, to run the program on *)

(** [strings.ToLower] on ASCII text. *)
Definition lower_ascii (c : ascii) : ascii :=
  let n := nat_of_ascii c in
  if (65 <=? n)%nat && (n <=? 90)%nat then ascii_of_nat (n + 32) else c.

Fixpoint ToLower_ascii (s : string) : string :=
  match s with
  | EmptyString => EmptyString
  | String c s' => String (lower_ascii c) (ToLower_ascii s')
  end.

Definition regular : FileInfo := {| Mode := {| IsRegular := true |} |}.
Definition directory : FileInfo := {| Mode := {| IsRegular := false |} |}.

(** Every file opens; the parser rejects every source; the transcoder
    fails; [stdinInfo] is what [os.Stdin.Stat()] gives. *)
Definition demo_world (stdinInfo : option FileInfo) : World :=
  {| ToLower := ToLower_ascii;
     os_Open := fun p => inl (OpenFile p);
     os_Stat := fun _ => None;
     Stdin_Stat := stdinInfo;
     filepath_Abs := fun p => p;
     Walk_visits := fun root =>
       [(root, Some directory, None);
        (root +:+ "/app.yaml", Some regular, None);
        (root +:+ "/notes.txt", Some regular, None)];
     parseJson := parseJson_spec (Document := unit)
                    (fun _ => inr "unexpected end of JSON input")
                    (fun _ _ d => d);
     yamlToJson := yamlToJson_spec (fun _ => inr "yaml: did not find expected key");
     encodeValue := fun v => string_of_list_byte v;
     MarshalIndent := fun l => inl "[]";
     rangeOrder := fun d => map_to_list d;
     syncConsul := mret tt |}.

Definition no_flags (fmt : string) : Flags :=
  {| debug := false; dump := false; format := fmt; prefix := "";
     glue := String "010" ""; sync := false; trace := false; quiet := false |}.

(** Two entries of an accumulation map, and the two orders a range loop
    may yield them in. *)
Definition two_keys : gmap string bytes :=
  <["a" := []]> (<["b" := []]> ∅).
Definition order_ab : list (string * bytes) := [("a", []); ("b", [])].
Definition order_ba : list (string * bytes) := [("b", []); ("a", [])].

(** The state of a run on one path argument while [/data] is walked. *)
Definition walking : State :=
  {| g_prefix := ""; path := "/data"; absPath := "/data"; nArgs := 1;
     data := ∅; events := [] |}.

(** A computation that leaves the process only with status 1 or 255. *)
Definition exits_ok {A : Type} (m : M A) : Prop :=
  ∀ s c s', m s = Exit c s' → c = 1%Z ∨ c = 255%Z.

(** A string without a path separator. *)
Definition sepFree (s : string) : Prop :=
  Forall (fun c => IsPathSeparator c = false) (list_ascii_of_string s).

(** The paths of the [Opened] events, in order. *)
Definition opened_paths (evs : list Event) : list string :=
  omap (fun e => match e with Opened p => Some p | _ => None end) evs.

(** The paths of the visits whose [FileInfo] is a regular file, in order. *)
Definition regular_paths
    (visits : list (string * option FileInfo * option error)) : list string :=
  omap (fun v => match v.1.2 with
                 | Some fi => if IsRegular (Mode fi) then Some v.1.1 else None
                 | None => None
                 end) visits.

(** A world with another file system. *)
Definition with_files (w : World) (open : string -> File + error)
    (stat : string -> option error) : World :=
  {| ToLower := ToLower w; os_Open := open; os_Stat := stat;
     Stdin_Stat := Stdin_Stat w; filepath_Abs := filepath_Abs w;
     Walk_visits := Walk_visits w; parseJson := parseJson w;
     yamlToJson := yamlToJson w; encodeValue := encodeValue w;
     MarshalIndent := MarshalIndent w; rangeOrder := rangeOrder w;
     syncConsul := syncConsul w |}.

(** The demo world with files that cannot be opened, and with a root that
    does not exist. *)
Definition unreadable_world : World :=
  with_files (demo_world None) (fun _ => inr "permission denied")
    (fun _ => None).

Definition missing_world : World :=
  with_files (demo_world None) (fun p => inl (OpenFile p))
    (fun _ => Some "no such file or directory").

(** The demo world with a parser that accepts every source and stores one
    empty value under the joined key prefix. *)
Definition storing_world : World :=
  with_parsers (demo_world None)
    (fun _ keyPrefix d => (<[String.concat "/" keyPrefix := []]> d, None))
    (fun _ => ([], None)).

(** A path with a doubled separator somewhere.  [filepath.Abs] and
    [filepath.Walk] return cleaned paths, which have none. *)
Fixpoint doubledSep (s : string) : bool :=
  match s with
  | String a (String b _ as s') =>
      (IsPathSeparator a && IsPathSeparator b) || doubledSep s'
  | _ => false
  end.




(** A world whose parsers tell sources apart: the normalizer accepts the
    file [/data/good.json] and the stream [{}] only, the flattener stores
    one value under the joined key prefix, and the transcoder fails on
    [/data/app.yaml], writes the lone byte [{] for [/data/half.yml] and
    [{}] for every other file. *)
Definition demo_normalize (r : Reader) : unit + error :=
  match r with
  | FileReader (Some (OpenFile name)) =>
      if String.eqb name "/data/good.json" then inl tt
      else inr "invalid character"
  | PipeReader [Byte.x7b; Byte.x7d] => inl tt
  | _ => inr "unexpected end of JSON input"
  end.

Definition demo_flatten (_ : unit) (keyPrefix : list string)
    (d : gmap string bytes) : gmap string bytes :=
  <[String.concat "/" keyPrefix := [Byte.x31]]> d.

Definition demo_transcode (fp : option File) : bytes + error :=
  match fp with
  | Some (OpenFile name) =>
      if String.eqb name "/data/app.yaml"
      then inr "yaml: did not find expected key"
      else if String.eqb name "/data/half.yml" then inl [Byte.x7b]
      else inl [Byte.x7b; Byte.x7d]
  | _ => inr "invalid argument"
  end.

Definition policy_world : World :=
  with_parsers (demo_world None) (parseJson_spec demo_normalize demo_flatten)
    (yamlToJson_spec demo_transcode).

(** The walk of [/data] with one entry already in the accumulation map. *)
Definition walking_kept : State :=
  {| g_prefix := ""; path := "/data"; absPath := "/data"; nArgs := 1;
     data := <["kept" := [Byte.x31]]> ∅; events := [] |}.

(** * Proofs *)

(** ** The model on concrete inputs *)

Example Ext_json : filepath.Ext "/data/app/db.json" = ".json".
Proof. reflexivity. Qed.

Example Ext_dotted_dir : filepath.Ext "/data/app.d/db" = "".
Proof. reflexivity. Qed.

Example Split_path : strings.Split "app/db" "/" = ["app"; "db"].
Proof. reflexivity. Qed.

Example Split_empty : strings.Split "" "/" = [""].
Proof. reflexivity. Qed.

Example TrimPrefix_once : strings.TrimPrefix "//a" "/" = "/a".
Proof. reflexivity. Qed.

Example deriveKey_file : deriveKey "/data" "/data/app/db.json" = Some ["app"; "db"].
Proof. reflexivity. Qed.

(** The file passed directly, and stdin mode (path [.json], no root). *)
Example deriveKey_direct : deriveKey "/data/db.json" "/data/db.json" = Some [].
Proof. reflexivity. Qed.

Example deriveKey_stdin : deriveKey "" ".json" = Some [].
Proof. reflexivity. Qed.

Example cleanPrefix_svc : cleanPrefix "/svc/app/" = "svc/app/".
Proof. reflexivity. Qed.

(** A walk over [/data] whose YAML file does not transcode: two warnings,
    nothing stored, status 0. *)
Example run_yaml_walk :
  exit_code (run (demo_world None) (no_flags "") ["/data"]) = 0%Z
  ∧ data (final_state (run (demo_world None) (no_flags "") ["/data"])) = ∅.
Proof. split; reflexivity. Qed.

(** ** Byte strings *)

Lemma app_cons (c : ascii) (s t : string) :
  String c s +:+ t = String c (s +:+ t).
Proof. reflexivity. Qed.

Lemma app_empty_l (t : string) : "" +:+ t = t.
Proof. reflexivity. Qed.

Lemma app_empty_r (s : string) : s +:+ "" = s.
Proof. induction s as [|c s IH]; [done|]. by rewrite app_cons, IH. Qed.

Lemma app_assoc_str (a b c : string) : (a +:+ b) +:+ c = a +:+ (b +:+ c).
Proof. induction a as [|x a IH]; [done|]. by rewrite !app_cons, IH. Qed.

Lemma length_app_str (a b : string) :
  String.length (a +:+ b) = String.length a + String.length b.
Proof. induction a as [|x a IH]; [done|]. rewrite app_cons. simpl. lia. Qed.

Lemma str_take_app (a b : string) : str_take (String.length a) (a +:+ b) = a.
Proof. induction a as [|x a IH]; [by destruct b|]. rewrite app_cons. simpl. by rewrite IH. Qed.

Lemma str_drop_app (a b : string) : str_drop (String.length a) (a +:+ b) = b.
Proof. induction a as [|x a IH]; [done|]. rewrite app_cons. simpl. by rewrite IH. Qed.

Lemma str_take_drop (n : nat) (s : string) : str_take n s +:+ str_drop n s = s.
Proof.
  revert s. induction n as [|n IH]; intros [|c s]; simpl; try done.
  by rewrite app_cons, IH.
Qed.

Lemma length_str_take (n : nat) (s : string) :
  (n <= String.length s)%nat → String.length (str_take n s) = n.
Proof.
  revert s. induction n as [|n IH]; intros [|c s]; simpl; try done; try lia.
  intros H. rewrite IH; lia.
Qed.

Lemma str_take_all (s : string) : str_take (String.length s) s = s.
Proof. induction s as [|c s IH]; simpl; [done|]. by rewrite IH. Qed.

Lemma str_drop_0 (s : string) : str_drop 0 s = s.
Proof. by destruct s. Qed.

(** Splitting a string at [n] is the only way to write it as [a +:+ b] with
    [a] of length [n]. *)
Lemma app_split_eq (a b : string) (s : string) :
  s = a +:+ b → a = str_take (String.length a) s ∧ b = str_drop (String.length a) s.
Proof. intros ->. by rewrite str_take_app, str_drop_app. Qed.

(** ** [strings.HasPrefix], [TrimPrefix], [HasSuffix], [TrimSuffix] *)

Lemma HasPrefix_app (a b : string) : strings.HasPrefix (a +:+ b) a = true.
Proof.
  unfold strings.HasPrefix. rewrite length_app_str, str_take_app, String.eqb_refl.
  rewrite andb_true_r. apply Nat.leb_le. lia.
Qed.

Lemma HasPrefix_true (s pre : string) :
  strings.HasPrefix s pre = true ↔ ∃ t, s = pre +:+ t.
Proof.
  split.
  - unfold strings.HasPrefix. intros [_ H]%andb_true_iff.
    apply String.eqb_eq in H. exists (str_drop (String.length pre) s).
    rewrite <- H at 1. by rewrite str_take_drop.
  - intros [t ->]. apply HasPrefix_app.
Qed.

Lemma TrimPrefix_app (a b : string) : strings.TrimPrefix (a +:+ b) a = b.
Proof. unfold strings.TrimPrefix. by rewrite HasPrefix_app, str_drop_app. Qed.

Lemma TrimPrefix_id (s pre : string) :
  strings.HasPrefix s pre = false → strings.TrimPrefix s pre = s.
Proof. unfold strings.TrimPrefix. by intros ->. Qed.

Lemma TrimPrefix_empty (s : string) : strings.TrimPrefix s "" = s.
Proof. apply (TrimPrefix_app "" s). Qed.

Lemma HasSuffix_app (a b : string) : strings.HasSuffix (a +:+ b) b = true.
Proof.
  unfold strings.HasSuffix. rewrite length_app_str.
  replace (String.length a + String.length b - String.length b)
    with (String.length a) by lia.
  rewrite str_drop_app, String.eqb_refl, andb_true_r. apply Nat.leb_le. lia.
Qed.

Lemma HasSuffix_true (s suf : string) :
  strings.HasSuffix s suf = true ↔ ∃ t, s = t +:+ suf.
Proof.
  split.
  - unfold strings.HasSuffix. intros [_ H]%andb_true_iff.
    apply String.eqb_eq in H.
    exists (str_take (String.length s - String.length suf) s).
    rewrite <- H at 2. by rewrite str_take_drop.
  - intros [t ->]. apply HasSuffix_app.
Qed.

Lemma TrimSuffix_app (a b : string) : strings.TrimSuffix (a +:+ b) b = a.
Proof.
  unfold strings.TrimSuffix. rewrite HasSuffix_app, length_app_str.
  replace (String.length a + String.length b - String.length b)
    with (String.length a) by lia.
  apply str_take_app.
Qed.

Lemma TrimSuffix_id (s suf : string) :
  strings.HasSuffix s suf = false → strings.TrimSuffix s suf = s.
Proof. unfold strings.TrimSuffix. by intros ->. Qed.

Lemma TrimSuffix_empty (s : string) : strings.TrimSuffix s "" = s.
Proof. rewrite <- (app_empty_r s) at 1. apply TrimSuffix_app. Qed.

Lemma last_byte_app (a b : string) :
  b ≠ "" → last_byte (a +:+ b) = last_byte b.
Proof.
  intros Hb. induction a as [|c a IH]; [done|].
  rewrite app_cons. simpl. rewrite IH.
  destruct (a +:+ b) eqn:E; [|done].
  destruct a; [by rewrite app_empty_l in E | by rewrite app_cons in E].
Qed.

Lemma HasSuffix_last_byte (s suf : string) :
  suf ≠ "" → strings.HasSuffix s suf = true → last_byte s = last_byte suf.
Proof. intros Hne [t ->]%HasSuffix_true. by apply last_byte_app. Qed.

Lemma HasSuffix_other_last (s suf suf' : string) :
  suf ≠ "" → suf' ≠ "" → last_byte suf ≠ last_byte suf' →
  strings.HasSuffix s suf = true → strings.HasSuffix s suf' = false.
Proof.
  intros H1 H2 Hne Hs. destruct (strings.HasSuffix s suf') eqn:E; [|done].
  apply HasSuffix_last_byte in Hs; [|done].
  apply HasSuffix_last_byte in E; [|done]. congruence.
Qed.

(** ** [strings.Split] *)

Lemma split_go_nonempty (sep : string) (skip : nat) (cur s : string) :
  strings.split_go sep skip cur s ≠ [].
Proof.
  revert skip cur. induction s as [|c s IH]; intros skip cur; simpl; [done|].
  destruct skip; [|apply IH].
  destruct (strings.HasPrefix _ _); [done | apply IH].
Qed.

Lemma Split_nonempty (s sep : string) : strings.Split s sep ≠ [].
Proof. apply split_go_nonempty. Qed.

(** ** [filepath.Ext] *)

Lemma list_ascii_app (a b : string) :
  list_ascii_of_string (a +:+ b)
  = list_ascii_of_string a ++ list_ascii_of_string b.
Proof. induction a as [|c a IH]; [done|]. rewrite app_cons. simpl. by rewrite IH. Qed.

Lemma string_of_list_ascii_snoc (l : list ascii) (c : ascii) (acc : string) :
  string_of_list_ascii (l ++ [c]) +:+ acc
  = string_of_list_ascii l +:+ String c acc.
Proof. induction l as [|x l IH]; [done|]. simpl. by rewrite !app_cons, IH. Qed.

Lemma ext_scan_dot (l r : list ascii) (acc : string) :
  Forall (fun c => IsPathSeparator c = false ∧ Ascii.eqb c "." = false) l →
  filepath.ext_scan (l ++ "."%char :: r) acc
  = String "." (string_of_list_ascii (rev l) +:+ acc).
Proof.
  intros Hl. revert acc. induction Hl as [|c l [Hs Hd] _ IH]; intros acc.
  - reflexivity.
  - simpl. rewrite Hs, Hd, IH. by rewrite string_of_list_ascii_snoc.
Qed.

Lemma Ext_dot (x e : string) :
  extName e → filepath.Ext (x +:+ String "." e) = String "." e.
Proof.
  intros He. unfold filepath.Ext. rewrite list_ascii_app. simpl.
  rewrite rev_app_distr. simpl. rewrite <- app_assoc. simpl.
  rewrite ext_scan_dot.
  - by rewrite rev_involutive, string_of_list_ascii_of_string, app_empty_r.
  - by apply Forall_rev.
Qed.

(** ** Key derivation *)

Lemma deriveKey_Some (absPath path : string) :
  ∃ ks, deriveKey absPath path = Some ks.
Proof.
  unfold deriveKey, collapseKey.
  pose proof (Split_nonempty
    (strings.TrimPrefix
       (strings.TrimSuffix (strings.TrimPrefix path absPath)
          (filepath.Ext path)) (String PathSeparator ""))
    (String PathSeparator "")) as Hne.
  fold (splitKey absPath path) in Hne.
  destruct (splitKey absPath path) as [|k0 rest]; [done|].
  destruct (String.eqb k0 ""); eauto.
Qed.

(** C4 (amended): the derived key segments are obtained by stripping the
    root path as a prefix of the file path, then stripping the extension
    that [filepath.Ext] finds in the file path, WHATEVER it is, then
    stripping one leading separator, then splitting on the separator.
    Where that extension is one of [.json], [.yml], [.yaml]
    (case-insensitively) or there is none, this is the derivation of the
    specification; and for a file [root/stem.e] the segments are those of
    [stem], for every extension name [e]. *)
Theorem splitKey_strips_any_ext (lower : string -> string)
    (absPath path : string) :
  (recognisedExt lower (filepath.Ext path) = true ∨ filepath.Ext path = "" →
   splitKey absPath path = splitKey_claimed lower absPath path)
  ∧ (∀ stem e, extName e →
       path = absPath +:+ "/" +:+ stem +:+ String "." e →
       splitKey absPath path = strings.Split stem "/").
Proof.
  split.
  - unfold splitKey, splitKey_claimed. intros [-> | ->]; [done|].
    rewrite TrimSuffix_empty. by destruct (recognisedExt lower "").
  - intros stem e He ->. unfold splitKey.
    replace (absPath +:+ "/" +:+ stem +:+ String "." e)
      with ((absPath +:+ "/" +:+ stem) +:+ String "." e)
      by (by rewrite !app_assoc_str).
    rewrite Ext_dot by done.
    rewrite !app_assoc_str, TrimPrefix_app.
    rewrite <- app_assoc_str, TrimSuffix_app.
    change (String PathSeparator "") with "/".
    by rewrite (TrimPrefix_app "/" stem).
Qed.

Lemma splitKey_strips_any_ext_witness :
  splitKey "/data" "/data/app/db.JSON"
  = splitKey_claimed ToLower_ascii "/data" "/data/app/db.JSON"
  ∧ splitKey "/data" "/data/app/db.txt" = strings.Split "app/db" "/".
Proof.
  split.
  - apply (proj1 (splitKey_strips_any_ext ToLower_ascii "/data" "/data/app/db.JSON")).
    left. reflexivity.
  - apply (proj2 (splitKey_strips_any_ext ToLower_ascii "/data" "/data/app/db.txt")
             "app/db" "txt").
    + repeat constructor.
    + reflexivity.
Defined.

(** C4, counterexample: the extension [.txt] is not one of the declared
    format suffixes, and is stripped all the same. *)
Lemma splitKey_claimed_counterexample :
  splitKey "/data" "/data/app/db.txt" = ["app"; "db"]
  ∧ splitKey_claimed ToLower_ascii "/data" "/data/app/db.txt"
    = ["app"; "db.txt"]
  ∧ splitKey "/data" "/data/app/db.txt"
    ≠ splitKey_claimed ToLower_ascii "/data" "/data/app/db.txt".
Proof. repeat split. discriminate. Qed.

(** ** Prefix normalisation *)

Lemma last_byte_snoc (s : string) (c : ascii) :
  last_byte s = Some c → ∃ t, s = t +:+ String c "".
Proof.
  induction s as [|a s IH]; [done|]. simpl. destruct s as [|b s].
  - intros [= ->]. by exists "".
  - intros H. destruct (IH H) as [t Ht]. exists (String a t).
    by rewrite app_cons, <- Ht.
Qed.

Lemma dropTrailing_snoc (c : ascii) (t : string) :
  dropTrailing c (t +:+ String c "") = dropTrailing c t.
Proof.
  induction t as [|a t IH].
  - rewrite app_empty_l. simpl. by rewrite Ascii.eqb_refl.
  - rewrite app_cons. simpl. by rewrite IH.
Qed.

Lemma dropTrailing_id (c : ascii) (s : string) :
  last_byte s ≠ Some c → dropTrailing c s = s.
Proof.
  induction s as [|a s IH]; [done|]. simpl. destruct s as [|b s].
  - intros H. simpl. destruct (Ascii.eqb_spec a c); congruence.
  - intros H. by rewrite (IH H).
Qed.

Lemma dropLeading_TrimPrefix (p : string) :
  strings.HasPrefix p "//" = false →
  dropLeading "/" p = strings.TrimPrefix p "/".
Proof.
  intros H. destruct p as [|c1 p]; [done|]. simpl.
  destruct (Ascii.eqb_spec c1 "/") as [->|Hc1].
  - change (String "/" p) with ("/" +:+ p).
    rewrite (TrimPrefix_app "/" p). destruct p as [|c2 r]; [done|]. simpl.
    destruct (Ascii.eqb_spec c2 "/") as [->|Hc2]; [|done].
    change (String "/" (String "/" r)) with ("//" +:+ r) in H.
    by rewrite (HasPrefix_app "//" r) in H.
  - rewrite TrimPrefix_id; [done|].
    destruct (strings.HasPrefix (String c1 p) "/") eqn:E; [|done].
    apply HasPrefix_true in E as [t E]. rewrite app_cons in E. congruence.
Qed.

Lemma dropTrailing_TrimSuffix (q : string) :
  strings.HasSuffix q "//" = false →
  dropTrailing "/" q = strings.TrimSuffix q "/".
Proof.
  intros H. destruct (strings.HasSuffix q "/") eqn:E.
  - apply HasSuffix_true in E as [t ->].
    rewrite TrimSuffix_app, dropTrailing_snoc. apply dropTrailing_id.
    intros [t' ->]%last_byte_snoc.
    rewrite app_assoc_str in H. change ("/" +:+ "/") with "//" in H.
    by rewrite (HasSuffix_app t' "//") in H.
  - rewrite TrimSuffix_id by done. apply dropTrailing_id.
    intros [t' ->]%last_byte_snoc. by rewrite HasSuffix_app in E.
Qed.

Lemma HasSuffix_TrimPrefix (p pre suf : string) :
  strings.HasSuffix p suf = false →
  strings.HasSuffix (strings.TrimPrefix p pre) suf = false.
Proof.
  intros H. unfold strings.TrimPrefix.
  destruct (strings.HasPrefix p pre) eqn:E; [|done].
  apply HasPrefix_true in E as [t ->]. rewrite str_drop_app.
  destruct (strings.HasSuffix t suf) eqn:Et; [|done].
  apply HasSuffix_true in Et as [u ->].
  by rewrite <- app_assoc_str, HasSuffix_app in H.
Qed.

(** C6 (amended): the normalized prefix has ONE leading and ONE trailing
    separator stripped (where there is one) and, when the stripped result
    is non-empty, exactly one trailing separator appended.  For a prefix
    without a doubled separator at either end this strips all of them, as
    the specification words it; the empty prefix, [/] and [//] normalize to
    the empty string. *)
Theorem cleanPrefix_strips_one (p : string) :
  (let q := strings.TrimSuffix (strings.TrimPrefix p "/") "/" in
   cleanPrefix p = if String.eqb q "" then "" else q +:+ "/")
  ∧ (strings.HasPrefix p "//" = false → strings.HasSuffix p "//" = false →
     cleanPrefix p = cleanPrefix_claimed p)
  ∧ (p = "" ∨ p = "/" ∨ p = "//" → cleanPrefix p = "").
Proof.
  assert (Hq : cleanPrefix p
               = if String.eqb (strings.TrimSuffix (strings.TrimPrefix p "/") "/") ""
                 then ""
                 else strings.TrimSuffix (strings.TrimPrefix p "/") "/" +:+ "/").
  { unfold cleanPrefix.
    by destruct (String.eqb_spec (strings.TrimSuffix (strings.TrimPrefix p "/") "/") "")
      as [-> |]. }
  split; [done|]. split.
  - intros H1 H2. rewrite Hq. unfold cleanPrefix_claimed.
    rewrite dropLeading_TrimPrefix by done.
    rewrite dropTrailing_TrimSuffix; [done|]. by apply HasSuffix_TrimPrefix.
  - by intros [-> | [-> | ->]].
Qed.

Lemma cleanPrefix_strips_one_witness :
  cleanPrefix "/svc/app/" = cleanPrefix_claimed "/svc/app/"
  ∧ cleanPrefix "//" = "".
Proof.
  split.
  - apply (proj1 (proj2 (cleanPrefix_strips_one "/svc/app/"))); reflexivity.
  - apply (proj2 (proj2 (cleanPrefix_strips_one "//"))). right. right.
    reflexivity.
Defined.

(** C6, counterexample: the separator-only prefix [///] does not normalize
    to the empty string, and [//svc//] keeps a leading and a doubled
    trailing separator. *)
Lemma cleanPrefix_claimed_counterexample :
  cleanPrefix "///" = "//" ∧ cleanPrefix_claimed "///" = ""
  ∧ cleanPrefix "//svc//" = "/svc//" ∧ cleanPrefix_claimed "//svc//" = "svc/".
Proof. repeat split. Qed.

(** ** [exportData] *)

(** The loop invariant: the slots below [i] are filled, the others are
    still [nil], and there is one slot left for each entry not yet seen. *)
Lemma exportLoop_fills (enc : bytes -> string) (kvs : list (string * bytes))
    (filled : list (option kvExportEntry)) :
  exportLoop enc kvs (length filled) (filled ++ replicate (length kvs) None)
  = Some (filled ++ (entryOf enc <$> kvs)).
Proof.
  revert filled. induction kvs as [|[key val] kvs IH]; intros filled.
  - simpl. by rewrite !app_nil_r.
  - cbn [exportLoop]. rewrite decide_True.
    2:{ rewrite length_app. simpl. lia. }
    rewrite insert_app_r_alt by lia. rewrite Nat.sub_diag. simpl.
    specialize (IH (filled ++ [entryOf enc (key, val)])).
    rewrite length_app, <- !app_assoc in IH. simpl in IH.
    by rewrite Nat.add_1_r in IH.
Qed.

Lemma exportSlice_fills (enc : bytes -> string) (kvs : list (string * bytes)) :
  exportSlice enc (length kvs) kvs = Some (entryOf enc <$> kvs).
Proof. apply (exportLoop_fills enc kvs []). Qed.

(** C1 (amended): for every accumulation map the export loop produces
    exactly one export entry per flat entry of the map, in the order in
    which the range loop over the map yields the entries; nothing sorts
    them, so two runs over the same map produce the same entries, possibly
    in a different order. *)
Theorem exportSlice_range (enc : bytes -> string) (d : gmap string bytes)
    (kvs : list (string * bytes)) :
  rangeOf d kvs →
  exportSlice enc (size d) kvs = Some (entryOf enc <$> kvs)
  ∧ length (entryOf enc <$> kvs) = size d
  ∧ NoDup (kvs.*1)
  ∧ (∀ k v, d !! k = Some v → Some (toExportEntry enc k v) ∈ entryOf enc <$> kvs)
  ∧ (∀ e, Some e ∈ entryOf enc <$> kvs →
       ∃ v, d !! Key e = Some v ∧ Value e = enc v)
  ∧ (∀ kvs', rangeOf d kvs' → entryOf enc <$> kvs' ≡ₚ entryOf enc <$> kvs).
Proof.
  unfold rangeOf. intros Hp.
  assert (Hlen : length kvs = size d).
  { by rewrite Hp, length_map_to_list. }
  repeat split.
  - rewrite <- Hlen. apply exportSlice_fills.
  - by rewrite length_fmap.
  - rewrite Hp. apply NoDup_fst_map_to_list.
  - intros k v Hkv. apply (list_elem_of_fmap_2 (entryOf enc) kvs (k, v)).
    rewrite Hp. by apply elem_of_map_to_list.
  - intros e [[k v] [[= ->] Hin]]%list_elem_of_fmap. simpl.
    exists v. split; [|done]. apply elem_of_map_to_list. by rewrite <- Hp.
  - intros kvs' Hp'. by rewrite Hp, Hp'.
Qed.

Lemma two_keys_list : map_to_list two_keys = order_ab.
Proof. vm_compute. reflexivity. Qed.

Lemma exportSlice_range_witness :
  exportSlice String.string_of_list_byte (size two_keys) order_ba
  = Some (entryOf String.string_of_list_byte <$> order_ba).
Proof.
  apply (exportSlice_range String.string_of_list_byte two_keys order_ba).
  unfold rangeOf. rewrite two_keys_list. apply perm_swap.
Defined.

(** C1, counterexample: the map with keys [a] and [b] may be ranged over as
    [b], [a]; the exported slice is then [b], [a], which is not sorted by
    key and differs from the slice of a run that ranged over [a], [b]. *)
Lemma exportSlice_sorted_counterexample :
  rangeOf two_keys order_ba ∧ rangeOf two_keys order_ab
  ∧ (∃ out, exportSlice String.string_of_list_byte (size two_keys) order_ba
            = Some out ∧ ¬ Sorted keyLe out)
  ∧ exportSlice String.string_of_list_byte (size two_keys) order_ba
    ≠ exportSlice String.string_of_list_byte (size two_keys) order_ab.
Proof.
  unfold rangeOf. rewrite two_keys_list.
  split; [apply perm_swap|]. split; [done|]. split.
  - exists (entryOf String.string_of_list_byte <$> order_ba). split; [done|].
    intros H. inversion H as [|? ? _ Hhd]; subst.
    inversion Hhd as [|? ? Hle]; subst. exact Hle.
  - discriminate.
Qed.

(** With any order the range loop may yield, [exportData] does not panic
    and writes the marshalled slice followed by a newline. *)
Lemma exportData_writes (w : World) (s : State) (json : string) :
  rangeOf (data s) (rangeOrder w (data s)) →
  MarshalIndent w (entryOf (encodeValue w) <$> rangeOrder w (data s))
  = inl json →
  ∃ s', exportData w s = Ret tt s'
        ∧ data s' = data s
        ∧ events s' = events s ++ [Stdout json; Stdout ""].
Proof.
  unfold rangeOf. intros Hp Hm.
  assert (Hlen : length (rangeOrder w (data s)) = size (data s)).
  { by rewrite Hp, length_map_to_list. }
  unfold exportData, emit, get, mbind, mret, M_bind, M_ret, bind, ret.
  rewrite <- Hlen, exportSlice_fills, Hm. simpl.
  eexists. split; [reflexivity|]. split; [done|]. simpl.
  by rewrite <- app_assoc.
Qed.

(** ** [parseConfig] *)

Ltac unfold_m :=
  unfold parseConfig, parseConfig_rest, parseYaml, call_parseJson, Open,
    FileInfo_Mode, Fatalf, Printf, emit, set_data, get, put, os_Exit, panic,
    mbind, mret, M_bind, M_ret, bind, ret in *.

(** The cases of the [switch] exclude one another by the last byte of the
    suffix. *)
Lemma formatOf_unsupported (l : string) :
  strings.HasSuffix l ".properties" = true
  ∨ strings.HasSuffix l ".ini" = true
  ∨ (strings.HasSuffix l ".json" = false ∧ strings.HasSuffix l ".yml" = false
     ∧ strings.HasSuffix l ".yaml" = false) →
  formatOf l = PROPERTIES ∨ formatOf l = INI ∨ formatOf l = OTHER.
Proof.
  unfold formatOf. intros [H | [H | (H1 & H2 & H3)]].
  - rewrite (HasSuffix_other_last l ".properties" ".json"),
      (HasSuffix_other_last l ".properties" ".yml"),
      (HasSuffix_other_last l ".properties" ".yaml"), H by done. auto.
  - rewrite (HasSuffix_other_last l ".ini" ".json"),
      (HasSuffix_other_last l ".ini" ".yml"),
      (HasSuffix_other_last l ".ini" ".yaml"),
      (HasSuffix_other_last l ".ini" ".properties"), H by done. auto.
  - rewrite H1, H2, H3. repeat case_match; auto.
Qed.

Lemma parseConfig_rest_unsupported w p fp err s :
  formatOf (ToLower w p) = PROPERTIES ∨ formatOf (ToLower w p) = INI
  ∨ formatOf (ToLower w p) = OTHER →
  ∃ s', parseConfig_rest w p fp err s = Ret None s' ∧ data s' = data s.
Proof.
  intros Hf. unfold_m.
  destruct (deriveKey_Some (absPath s) p) as [ks Hks].
  destruct err; simpl; rewrite Hks; simpl.
  all: destruct Hf as [-> | [-> | ->]]; simpl; eauto.
Qed.

Lemma parseConfig_rest_outcome w p fp err s :
  match parseConfig_rest w p fp err s with
  | Ret r _ => r = None
  | Exit c _ => c = 1%Z ∧ formatOf (ToLower w p) = JSON
  | Panic _ => False
  end.
Proof.
  unfold_m.
  destruct (deriveKey_Some (absPath s) p) as [ks Hks].
  destruct err; simpl; rewrite Hks; simpl.
  all: destruct (formatOf (ToLower w p)) eqn:Hf; simpl; try done.
  all: try (destruct (parseJson w _ _ _) as [d [e'|]]; simpl; done).
  all: destruct (yamlToJson w fp) as [wr [e'|]]; simpl.
  all: try (destruct (parseJson w _ _ _) as [d [e''|]]; simpl; done).
Qed.

(** C8: key derivation is a total function of the root path and the file
    path: the split result is never empty, so [keyPrefix[0]] is always in
    bounds and the derivation yields a (possibly empty) segment sequence
    for every input; inside [parseConfig] it is that sequence which is
    logged as the key prefix, and the derivation never panics. *)
Theorem deriveKey_total :
  (∀ absPath path,
     splitKey absPath path ≠ [] ∧ ∃ ks, deriveKey absPath path = Some ks)
  ∧ (∀ w p fp err s,
       ∃ ks, deriveKey (absPath s) p = Some ks
         ∧ Log DebugL "keyprefix is %v" [AStrs ks]
           ∈ events (final_state (parseConfig_rest w p fp err s))
         ∧ ∀ s', parseConfig_rest w p fp err s ≠ Panic s').
Proof.
  split.
  - intros a p. split; [apply Split_nonempty | apply deriveKey_Some].
  - intros w p fp err s. destruct (deriveKey_Some (absPath s) p) as [ks Hks].
    exists ks. split; [done|]. split.
    + unfold_m. destruct err; simpl; rewrite Hks; simpl.
      all: destruct (formatOf (ToLower w p)); simpl.
      all: repeat match goal with
             | |- context [(parseJson ?w ?r ?k ?d).2] =>
                 destruct (parseJson w r k d) as [? [?|]]; simpl
             | |- context [(yamlToJson ?w ?f).2] =>
                 destruct (yamlToJson w f) as [? [?|]]; simpl
             end.
      all: rewrite ?elem_of_app, ?list_elem_of_singleton; tauto.
    + intros s' H. pose proof (parseConfig_rest_outcome w p fp err s) as Ho.
      by rewrite H in Ho.
Qed.

Ltac rest_outcome :=
  match goal with
  | |- context [parseConfig_rest ?w ?p ?fp ?e ?s] =>
      let H := fresh in
      pose proof (parseConfig_rest_outcome w p fp e s) as H;
      destruct (parseConfig_rest w p fp e s)
  end.

Lemma parseConfig_outcome w p f err s :
  match parseConfig w p f err s with
  | Ret r _ => r = None
  | Exit c _ => c = 1%Z ∧ formatOf (ToLower w p) = JSON
  | Panic _ => f = None
  end.
Proof.
  unfold parseConfig, FileInfo_Mode, Printf, emit, get, panic, mbind, mret,
    M_bind, M_ret, bind, ret.
  destruct f as [fi|]; simpl; [|done].
  destruct (IsRegular (Mode fi) && _).
  - unfold Open, emit, mbind, mret, M_bind, M_ret, bind, ret. simpl.
    destruct (os_Open w p); simpl; rest_outcome; done.
  - destruct (_ =? 0)%nat; [|done]. rest_outcome; done.
Qed.

Lemma Walk_go_outcome w visits s :
  match Walk_go visits (parseConfig w) s with
  | Ret r _ => r = None
  | Exit c _ => c = 1%Z
  | Panic _ => ∃ v, v ∈ visits ∧ v.1.2 = None
  end.
Proof.
  revert s. induction visits as [|[[p f] e] visits IH]; intros s; [done|].
  simpl. unfold mbind, M_bind, bind.
  pose proof (parseConfig_outcome w p f e s) as H.
  destruct (parseConfig w p f e s) as [r s'|c s'|s'].
  - subst r. specialize (IH s'). destruct (Walk_go visits _ s'); try done.
    destruct IH as (v & Hv & Hn). exists v. split; [by right|done].
  - by destruct H.
  - exists (p, f, e). split; [by left|done].
Qed.

Lemma Walk_go_continues w p f e rest s s' :
  parseConfig w p f e s = Ret None s' →
  Walk_go ((p, f, e) :: rest) (parseConfig w) s
  = Walk_go rest (parseConfig w) s'.
Proof. intros H. simpl. unfold mbind, M_bind, bind. by rewrite H. Qed.

(** C7: for a traversed file whose (lower-cased) path ends in
    [.properties] or [.ini], or in none of [.json], [.yml], [.yaml],
    [parseConfig] returns no error and leaves the accumulation map
    unchanged, and the walk goes on with the next file. *)
Theorem parseConfig_unsupported (w : World) (p : string) (fi : FileInfo)
    (err : option error) (s : State) :
  strings.HasSuffix (ToLower w p) ".properties" = true
  ∨ strings.HasSuffix (ToLower w p) ".ini" = true
  ∨ (strings.HasSuffix (ToLower w p) ".json" = false
     ∧ strings.HasSuffix (ToLower w p) ".yml" = false
     ∧ strings.HasSuffix (ToLower w p) ".yaml" = false) →
  ∃ s', parseConfig w p (Some fi) err s = Ret None s'
        ∧ data s' = data s
        ∧ ∀ rest, Walk_go ((p, Some fi, err) :: rest) (parseConfig w) s
                  = Walk_go rest (parseConfig w) s'.
Proof.
  intros Hf%formatOf_unsupported.
  assert (∃ s', parseConfig w p (Some fi) err s = Ret None s'
                ∧ data s' = data s) as (s' & Hs' & Hd).
  { unfold parseConfig, FileInfo_Mode, Printf, emit, get, mbind, mret,
      M_bind, M_ret, bind, ret. simpl.
    destruct (IsRegular (Mode fi) && _).
    - unfold Open, emit, mbind, mret, M_bind, M_ret, bind, ret. simpl.
      destruct (os_Open w p); simpl.
      all: edestruct parseConfig_rest_unsupported as (s' & -> & Hd);
        [exact Hf|]; eauto.
    - destruct (_ =? 0)%nat; [|eauto].
      edestruct parseConfig_rest_unsupported as (s' & -> & Hd);
        [exact Hf|]; eauto. }
  exists s'. repeat split; try done.
  intros rest. by apply Walk_go_continues.
Qed.

Lemma parseConfig_unsupported_witness :
  ∃ s', parseConfig (demo_world None) "/data/app.properties" (Some regular)
          None walking = Ret None s'
        ∧ data s' = data walking.
Proof.
  destruct (parseConfig_unsupported (demo_world None) "/data/app.properties"
              regular None walking) as (s' & H1 & H2 & _).
  - left. reflexivity.
  - exists s'. split; assumption.
Defined.

(** C10: [parseConfig] evaluates [f.Mode()] before it looks at [nArgs]:
    with a nil [FileInfo] it panics whatever the mode of input, with a
    non-nil one it never panics; and [main] in stdin mode passes on the
    [FileInfo] of [os.Stdin.Stat()] unchecked, so it panics when that call
    fails. *)
Theorem parseConfig_nil_FileInfo (w : World) :
  (∀ p err s, ∃ s', parseConfig w p None err s = Panic s')
  ∧ (∀ p fi err s s', parseConfig w p (Some fi) err s ≠ Panic s')
  ∧ (∀ fl, Stdin_Stat w = None →
       format fl = "json" ∨ format fl = "yaml" →
       ∃ s', run w fl [] = Panic s').
Proof.
  split; [|split].
  - intros. unfold_m. simpl. eauto.
  - intros p fi err s s' H.
    pose proof (parseConfig_outcome w p (Some fi) err s) as Ho.
    by rewrite H in Ho.
  - intros fl Hst Hfmt. unfold run, main. rewrite Hst.
    assert (String.eqb (format fl) "json" || String.eqb (format fl) "yaml"
            = true) as ->.
    { destruct Hfmt as [-> | ->]; reflexivity. }
    unfold_m. simpl. eauto.
Qed.

Lemma parseConfig_nil_FileInfo_witness :
  ∃ s', run (demo_world None) (no_flags "json") [] = Panic s'.
Proof.
  apply (proj2 (proj2 (parseConfig_nil_FileInfo (demo_world None)))
           (no_flags "json")).
  - reflexivity.
  - left. reflexivity.
Defined.

(** ** Parse failures *)





(** The same world on sources that parse: the JSON file and the YAML file
    each add their entry to the map. *)
Example policy_world_stores :
  data (final_state (parseConfig policy_world "/data/good.json"
                       (Some regular) None walking_kept)) !! "good"
  = Some [Byte.x31]
  ∧ data (final_state (parseConfig policy_world "/data/svc/ok.yaml"
                         (Some regular) None walking_kept)) !! "svc/ok"
    = Some [Byte.x31]
  ∧ data (final_state (parseConfig policy_world "/data/app.yaml"
                         (Some regular) None walking_kept)) !! "app"
    = None.
Proof. repeat split; vm_compute; reflexivity. Qed.

(** ** [main] and the exit status *)

Lemma exits_ok_bind {A B} (m : M A) (k : A → M B) :
  exits_ok m → (∀ a, exits_ok (k a)) → exits_ok (m ≫= k).
Proof.
  intros Hm Hk s c s'. unfold mbind, M_bind, bind.
  destruct (m s) as [a s1|c1 s1|s1] eqn:E; [apply Hk| |done].
  intros [= <- <-]. by apply (Hm s c1 s1).
Qed.

Lemma exits_ok_ret {A} (a : A) : exits_ok (mret a).
Proof. by intros s c s'. Qed.
Lemma exits_ok_emit e : exits_ok (emit e).
Proof. by intros s c s'. Qed.
Lemma exits_ok_Printf l f a : exits_ok (Printf l f a).
Proof. by intros s c s'. Qed.
Lemma exits_ok_get : exits_ok get.
Proof. by intros s c s'. Qed.
Lemma exits_ok_put x : exits_ok (put x).
Proof. by intros s c s'. Qed.
Lemma exits_ok_panic {A} : exits_ok (@panic A).
Proof. by intros s c s'. Qed.
Lemma exits_ok_Exit1 {A} : exits_ok (@os_Exit A 1).
Proof. intros s c s' [= <- _]. by left. Qed.
Lemma exits_ok_Exit255 {A} : exits_ok (@os_Exit A 255).
Proof. intros s c s' [= <- _]. by right. Qed.
Lemma exits_ok_Fatalf {A} f a : exits_ok (@Fatalf A f a).
Proof. intros s c s' [= <- _]. by left. Qed.

Lemma exits_ok_parseConfig w p f e : exits_ok (parseConfig w p f e).
Proof.
  intros s c s' H. pose proof (parseConfig_outcome w p f e s) as Ho.
  rewrite H in Ho. left. apply Ho.
Qed.

Lemma exits_ok_Walk w root : exits_ok (Walk w root (parseConfig w)).
Proof.
  intros s c s' H. pose proof (Walk_go_outcome w (Walk_visits w root) s) as Ho.
  unfold Walk in H. rewrite H in Ho. by left.
Qed.

Create HintDb exits.
#[local] Hint Resolve exits_ok_ret exits_ok_emit exits_ok_Printf exits_ok_get
  exits_ok_put exits_ok_panic exits_ok_Exit1 exits_ok_Exit255 exits_ok_Fatalf
  exits_ok_parseConfig exits_ok_Walk : exits.

Ltac exits_step :=
  match goal with
  | |- exits_ok (_ ≫= _) => apply exits_ok_bind; [|intros]
  | |- exits_ok (match ?x with _ => _ end) => destruct x
  | |- exits_ok _ => solve [eauto with exits]
  end.

Lemma exits_ok_exportData w : exits_ok (exportData w).
Proof. unfold exportData. repeat exits_step. Qed.

Lemma exits_ok_main w fl args : sync fl = false → exits_ok (main w fl args).
Proof.
  intros Hs. unfold main, usage. rewrite Hs.
  pose proof (exits_ok_exportData w).
  repeat exits_step.
Qed.

(** The exit status of [main]: a wrong argument count ends the process
    with status 255 and reading stdin with the -format option absent or not
    one of json/yaml ends it with status 1, in both cases before any work
    has been attempted.  Without -sync, the process ends with status 0
    exactly when [main] returns. *)
Theorem usage_exit_codes (w : World) (fl : Flags) (args : list string) :
  ((2 <= length args)%nat →
   ∃ s', run w fl args = Exit 255 s' ∧ no_work s')
  ∧ (args = [] → format fl ≠ "json" → format fl ≠ "yaml" →
     ∃ s', run w fl args = Exit 1 s' ∧ no_work s')
  ∧ (sync fl = false →
     (exit_code (run w fl args) = 0%Z ↔ ∃ s', run w fl args = Ret tt s')).
Proof.
  split; [|split].
  - destruct args as [|a [|b rest]]; simpl; [lia..|]. intros _.
    unfold run, main, usage. unfold_m. simpl. eexists.
    split; [reflexivity|]. by split.
  - intros -> H1%String.eqb_neq H2%String.eqb_neq. unfold run, main, usage.
    rewrite H1, H2. unfold_m. simpl. eexists. split; [reflexivity|].
    by split.
  - intros Hs. split.
    + pose proof (exits_ok_main w fl args Hs initial) as Hex. unfold run.
      destruct (main w fl args initial) as [[] s'|c s'|s']; simpl.
      * eauto.
      * intros ->. by destruct (Hex 0%Z s' eq_refl).
      * done.
    + by intros [s' ->].
Qed.

Lemma usage_exit_codes_witness :
  (∃ s', run (demo_world None) (no_flags "") ["a"; "b"] = Exit 255 s'
         ∧ no_work s')
  ∧ (∃ s', run (demo_world None) (no_flags "xml") [] = Exit 1 s'
           ∧ no_work s')
  ∧ exit_code (run (demo_world None) (no_flags "yaml") ["/data"]) = 0%Z.
Proof.
  split; [|split].
  - apply (proj1 (usage_exit_codes (demo_world None) (no_flags "") ["a"; "b"])).
    simpl. lia.
  - apply (proj1 (proj2 (usage_exit_codes (demo_world None) (no_flags "xml") [])));
      [reflexivity | discriminate | discriminate].
  - apply (proj2 (proj2 (usage_exit_codes (demo_world None) (no_flags "yaml")
                           ["/data"]))); [reflexivity|].
    eexists. vm_compute. reflexivity.
Defined.

(** C2: the two usage errors do not end the process alike.  Reading stdin
    without -format ends it with status 1 (line 76), whereas a wrong
    argument count ends it with status 255 (line 93); in both cases nothing
    has been opened, parsed, written or synced. *)
Lemma stdin_usage_error_status :
  exit_code (run (demo_world (Some regular)) (no_flags "") []) = 1%Z
  ∧ exit_code (run (demo_world (Some regular)) (no_flags "") []) ≠ 255%Z
  ∧ exit_code (run (demo_world (Some regular)) (no_flags "") ["a"; "b"])
    = 255%Z
  ∧ no_work (final_state (run (demo_world (Some regular)) (no_flags "") [])).
Proof. repeat split. discriminate. Qed.

(** * Further properties of the program *)

(** ** The segments of a derived key *)

Lemma HasPrefix_sep (c : ascii) (s : string) :
  strings.HasPrefix (String c s) "/" = Ascii.eqb c "/".
Proof.
  unfold strings.HasPrefix. simpl. by destruct (Ascii.eqb c "/").
Qed.

Lemma split_sep_cons (cur : string) (c : ascii) (s : string) :
  strings.split_go "/" 0 cur (String c s)
  = if Ascii.eqb c "/" then cur :: strings.split_go "/" 0 "" s
    else strings.split_go "/" 0 (cur +:+ String c "") s.
Proof. cbn [strings.split_go]. by rewrite HasPrefix_sep. Qed.

Lemma sepFree_snoc (cur : string) (c : ascii) :
  sepFree cur → Ascii.eqb c "/" = false → sepFree (cur +:+ String c "").
Proof.
  unfold sepFree. intros Hc Hne. rewrite list_ascii_app.
  apply Forall_app. split; [done|]. by repeat constructor.
Qed.

Lemma split_go_sepFree (cur s : string) :
  sepFree cur → Forall sepFree (strings.split_go "/" 0 cur s).
Proof.
  revert cur. induction s as [|c s IH]; intros cur Hcur.
  - by repeat constructor.
  - rewrite split_sep_cons. destruct (Ascii.eqb c "/") eqn:E.
    + constructor; [done|]. apply IH. constructor.
    + apply IH. by apply sepFree_snoc.
Qed.

Lemma concat_split_go (cur s : string) :
  String.concat "/" (strings.split_go "/" 0 cur s) = cur +:+ s.
Proof.
  revert cur. induction s as [|c s IH]; intros cur.
  - simpl. by rewrite app_empty_r.
  - rewrite split_sep_cons. destruct (Ascii.eqb_spec c "/") as [->|Hc].
    + pose proof (split_go_nonempty "/" 0 "" s) as Hne.
      specialize (IH ""). destruct (strings.split_go "/" 0 "" s) as [|x xs];
        [done|].
      change (String.concat "/" (cur :: x :: xs))
        with (cur +:+ "/" +:+ String.concat "/" (x :: xs)).
      by rewrite IH.
    + rewrite IH, app_assoc_str. done.
Qed.

Lemma split_go_segment (cur seg : string) :
  sepFree seg →
  strings.split_go "/" 0 cur seg = [cur +:+ seg]
  ∧ ∀ t, strings.split_go "/" 0 cur (seg +:+ String "/" t)
         = (cur +:+ seg) :: strings.split_go "/" 0 "" t.
Proof.
  unfold sepFree. revert cur.
  induction seg as [|c seg IH]; intros cur Hs.
  - rewrite app_empty_r. split; [done|]. intros t.
    rewrite app_empty_l, split_sep_cons. done.
  - simpl in Hs. apply Forall_cons in Hs as [Hc Hs].
    destruct (IH (cur +:+ String c "") Hs) as [IH1 IH2].
    unfold IsPathSeparator, PathSeparator in Hc.
    split.
    + rewrite split_sep_cons, Hc, IH1, app_assoc_str. done.
    + intros t. rewrite app_cons, split_sep_cons, Hc, IH2, app_assoc_str.
      done.
Qed.

Lemma Split_concat (segs : list string) :
  segs ≠ [] → Forall sepFree segs →
  strings.Split (String.concat "/" segs) "/" = segs.
Proof.
  unfold strings.Split. intros Hne Hs. induction Hs as [|seg segs Hseg Hs IH];
    [done|].
  destruct segs as [|seg' segs].
  - simpl. by destruct (split_go_segment "" seg Hseg) as [-> _].
  - change (String.concat "/" (seg :: seg' :: segs))
      with (seg +:+ String "/" (String.concat "/" (seg' :: segs))).
    destruct (split_go_segment "" seg Hseg) as [_ ->].
    by rewrite IH.
Qed.

Lemma split_go_head (cur s : string) :
  ∃ y rest, strings.split_go "/" 0 cur s = (cur +:+ y) :: rest.
Proof.
  revert cur. induction s as [|c s IH]; intros cur.
  - exists "", []. simpl. by rewrite app_empty_r.
  - rewrite split_sep_cons. destruct (Ascii.eqb c "/").
    + exists "". eexists. by rewrite app_empty_r.
    + destruct (IH (cur +:+ String c "")) as (y & rest & ->).
      exists (String c y), rest. by rewrite app_assoc_str.
Qed.

(** The relative path that is split: lines 119-125 of [parseConfig]. *)
Lemma splitKey_unfold (absPath path : string) :
  splitKey absPath path
  = strings.split_go "/" 0 ""
      (strings.TrimPrefix
         (strings.TrimSuffix (strings.TrimPrefix path absPath)
            (filepath.Ext path)) "/").
Proof. reflexivity. Qed.

(** No segment of a derived key contains the path separator, so joining
    the segments with [/] cannot merge or split a segment. *)
Theorem deriveKey_segments_sepFree (absPath path : string) :
  Forall sepFree (splitKey absPath path)
  ∧ Forall sepFree (default [] (deriveKey absPath path)).
Proof.
  assert (H : Forall sepFree (splitKey absPath path)).
  { rewrite splitKey_unfold. apply split_go_sepFree. constructor. }
  split; [done|]. unfold deriveKey, collapseKey.
  destruct (splitKey absPath path) as [|k0 rest]; [constructor|].
  destruct (String.eqb k0 ""); [constructor | done].
Qed.

(** Joining the derived segments with [/] gives back the path relative to
    the root, without its extension and leading separator, whenever that
    relative path is not empty and does not begin with a second separator. *)
Theorem deriveKey_concat (absPath path : string) :
  let stem := strings.TrimPrefix
                (strings.TrimSuffix (strings.TrimPrefix path absPath)
                   (filepath.Ext path)) "/" in
  String.concat "/" (splitKey absPath path) = stem
  ∧ (stem ≠ "" → strings.HasPrefix stem "/" = false →
     ∃ ks, deriveKey absPath path = Some ks ∧ ks ≠ []
           ∧ String.concat "/" ks = stem).
Proof.
  intros stem.
  assert (Hc : String.concat "/" (splitKey absPath path) = stem).
  { rewrite splitKey_unfold. fold stem. by rewrite concat_split_go. }
  split; [done|]. intros Hne Hpre.
  unfold deriveKey, collapseKey. rewrite splitKey_unfold in *. fold stem in Hc |- *.
  destruct stem as [|c stem']; [done|].
  rewrite HasPrefix_sep in Hpre.
  rewrite split_sep_cons, Hpre in *.
  destruct (split_go_head ("" +:+ String c "") stem') as (y & rest & Hs).
  rewrite Hs in *. simpl. eauto.
Qed.

Lemma deriveKey_concat_witness :
  ∃ ks, deriveKey "/data" "/data/app/db.json" = Some ks ∧ ks ≠ []
        ∧ String.concat "/" ks = "app/db".
Proof.
  apply (proj2 (deriveKey_concat "/data" "/data/app/db.json"));
    [discriminate | reflexivity].
Defined.

Lemma splitKey_under_root (absPath stem e : string) :
  extName e →
  splitKey absPath (absPath +:+ "/" +:+ stem +:+ String "." e)
  = strings.Split stem "/".
Proof.
  intros He. unfold splitKey.
  replace (absPath +:+ "/" +:+ stem +:+ String "." e)
    with ((absPath +:+ "/" +:+ stem) +:+ String "." e)
    by (by rewrite !app_assoc_str).
  rewrite Ext_dot by done.
  rewrite !app_assoc_str, TrimPrefix_app.
  rewrite <- app_assoc_str, TrimSuffix_app.
  change (String PathSeparator "") with "/".
  by rewrite (TrimPrefix_app "/" stem).
Qed.

(** A file [root/s1/.../sn.e] derives exactly the segments [s1 ... sn]: the
    directories below the root and the file name without its extension. *)
Theorem deriveKey_components (absPath : string) (segs : list string)
    (e : string) :
  segs ≠ [] → head segs ≠ Some "" → Forall sepFree segs → extName e →
  deriveKey absPath
    (absPath +:+ "/" +:+ String.concat "/" segs +:+ String "." e)
  = Some segs.
Proof.
  intros Hne Hhd Hs He. unfold deriveKey.
  rewrite splitKey_under_root, Split_concat by done.
  destruct segs as [|k0 rest]; [done|]. simpl.
  destruct (String.eqb_spec k0 "") as [->|]; [done|done].
Qed.

Lemma deriveKey_components_witness :
  deriveKey "/srv/conf" "/srv/conf/svc/app/db.backup.yaml"
  = Some ["svc"; "app"; "db.backup"].
Proof.
  apply (deriveKey_components "/srv/conf" ["svc"; "app"; "db.backup"] "yaml").
  - discriminate.
  - discriminate.
  - repeat constructor.
  - repeat constructor.
Defined.

Lemma TrimSuffix_of_empty (suf : string) : strings.TrimSuffix "" suf = "".
Proof.
  unfold strings.TrimSuffix. by destruct (strings.HasSuffix "" suf).
Qed.

(** A file passed directly as the path argument (the walk then visits the
    root itself) contributes with an empty key prefix, whatever its name
    and extension. *)
Theorem deriveKey_root_file (absPath : string) :
  splitKey absPath absPath = [""] ∧ deriveKey absPath absPath = Some [].
Proof.
  assert (H : splitKey absPath absPath = [""]).
  { unfold splitKey.
    rewrite <- (app_empty_r absPath) at 1. rewrite TrimPrefix_app.
    by rewrite TrimSuffix_of_empty. }
  split; [done|]. unfold deriveKey. by rewrite H.
Qed.

(** ** The extension that selects the parser and the extension that is
    stripped *)

Lemma lower_ascii_dot (c : ascii) : lower_ascii c = "."%char → c = "."%char.
Proof.
  destruct c as [[] [] [] [] [] [] [] []]; vm_compute; intros H;
    try reflexivity; discriminate H.
Qed.

Lemma ToLower_ascii_app (a b : string) :
  ToLower_ascii (a +:+ b) = ToLower_ascii a +:+ ToLower_ascii b.
Proof.
  induction a as [|c a IH]; [done|]. rewrite app_cons. simpl.
  by rewrite IH, app_cons.
Qed.

Lemma ToLower_ascii_length (s : string) :
  String.length (ToLower_ascii s) = String.length s.
Proof. induction s as [|c s IH]; simpl; [done|]. by rewrite IH. Qed.

Lemma app_eq_tail (a b c d : string) :
  a +:+ b = c +:+ d → String.length a = String.length c → b = d.
Proof.
  intros H Hl. rewrite <- (str_drop_app a b), <- (str_drop_app c d).
  by rewrite H, Hl.
Qed.

Lemma lower_suffix_split (p suf : string) :
  strings.HasSuffix (ToLower_ascii p) suf = true →
  ∃ t e, p = t +:+ e ∧ ToLower_ascii e = suf.
Proof.
  intros [u Hu]%HasSuffix_true.
  assert (Hlen : String.length p = String.length u + String.length suf).
  { by rewrite <- (ToLower_ascii_length p), Hu, length_app_str. }
  exists (str_take (String.length u) p), (str_drop (String.length u) p).
  split; [by rewrite str_take_drop|].
  rewrite <- (str_take_drop (String.length u) p) in Hu at 1.
  rewrite ToLower_ascii_app in Hu. apply app_eq_tail in Hu; [done|].
  rewrite ToLower_ascii_length. apply length_str_take. lia.
Qed.

Lemma extName_lower (x : string) : extName (ToLower_ascii x) → extName x.
Proof.
  unfold extName. induction x as [|c x IH]; simpl; [done|].
  intros [[Hs Hd] Hx]%Forall_cons. constructor; [|by apply IH].
  unfold IsPathSeparator, PathSeparator in *. split.
  - destruct (Ascii.eqb_spec c "/") as [->|]; [discriminate Hs | done].
  - destruct (Ascii.eqb_spec c ".") as [->|]; [discriminate Hd | done].
Qed.

Lemma Ext_of_lower_suffix (p suf : string) :
  extName suf →
  strings.HasSuffix (ToLower_ascii p) (String "." suf) = true →
  ToLower_ascii (filepath.Ext p) = String "." suf
  ∧ strings.HasSuffix p (filepath.Ext p) = true.
Proof.
  intros Hsuf (t & e & -> & He)%lower_suffix_split.
  destruct e as [|c0 e']; [discriminate He|]. simpl in He.
  injection He as Hc0 He'. apply lower_ascii_dot in Hc0 as ->.
  rewrite Ext_dot.
  - split; [simpl; by rewrite He' | apply HasSuffix_app].
  - apply extName_lower. by rewrite He'.
Qed.

Lemma formatOf_suffix (l : string) :
  (formatOf l = JSON → strings.HasSuffix l ".json" = true)
  ∧ (formatOf l = YAML →
     strings.HasSuffix l ".yml" = true ∨ strings.HasSuffix l ".yaml" = true).
Proof. unfold formatOf. repeat case_match; split; intros; auto; done. Qed.

(** With ASCII lower-casing, the suffix test that selects the parser and
    [filepath.Ext] agree: a path parsed as JSON has the extension [.json]
    up to case, a path parsed as YAML the extension [.yml] or [.yaml] up to
    case, and it is exactly this format suffix that key derivation strips
    from the end of the path. *)
Theorem parser_extension_agree (p : string) :
  let ext := filepath.Ext p in
  (formatOf (ToLower_ascii p) = JSON →
   ToLower_ascii ext = ".json" ∧ strings.HasSuffix p ext = true)
  ∧ (formatOf (ToLower_ascii p) = YAML →
     (ToLower_ascii ext = ".yml" ∨ ToLower_ascii ext = ".yaml")
     ∧ strings.HasSuffix p ext = true)
  ∧ (formatOf (ToLower_ascii p) = JSON ∨ formatOf (ToLower_ascii p) = YAML →
     ∀ absPath, splitKey absPath p = splitKey_claimed ToLower_ascii absPath p).
Proof.
  intros ext.
  assert (HJ : formatOf (ToLower_ascii p) = JSON →
               ToLower_ascii ext = ".json" ∧ strings.HasSuffix p ext = true).
  { intros H%formatOf_suffix. apply (Ext_of_lower_suffix p "json"); [|done].
    repeat constructor. }
  assert (HY : formatOf (ToLower_ascii p) = YAML →
               (ToLower_ascii ext = ".yml" ∨ ToLower_ascii ext = ".yaml")
               ∧ strings.HasSuffix p ext = true).
  { intros [H|H]%formatOf_suffix.
    - destruct (Ext_of_lower_suffix p "yml") as [? ?]; [repeat constructor|done|].
      auto.
    - destruct (Ext_of_lower_suffix p "yaml") as [? ?]; [repeat constructor|done|].
      auto. }
  split; [done|]. split; [done|].
  intros Hf absPath. unfold splitKey, splitKey_claimed, recognisedExt.
  fold ext.
  destruct Hf as [Hf|Hf].
  - destruct (HJ Hf) as [-> _]. done.
  - destruct (HY Hf) as [[-> | ->] _]; done.
Qed.

Lemma parser_extension_agree_witness :
  ToLower_ascii (filepath.Ext "/data/App/DB.Json") = ".json"
  ∧ strings.HasSuffix "/data/App/DB.Json" (filepath.Ext "/data/App/DB.Json")
    = true.
Proof.
  apply (proj1 (parser_extension_agree "/data/App/DB.Json")). reflexivity.
Defined.

(** ** Cleaning the prefix twice *)

Lemma HasPrefix_sep_false (s : string) :
  strings.HasPrefix s "/" = false → ∀ t, strings.HasPrefix (s +:+ t) "/" = false
                                         ∨ s = "".
Proof.
  intros H t. destruct s as [|c s]; [by right|]. left.
  rewrite app_cons, HasPrefix_sep. by rewrite HasPrefix_sep in H.
Qed.

Lemma TrimPrefix_no_double (p : string) :
  strings.HasPrefix p "//" = false →
  strings.HasPrefix (strings.TrimPrefix p "/") "/" = false.
Proof.
  intros H. destruct (strings.HasPrefix p "/") eqn:E.
  - apply HasPrefix_true in E as [t ->]. rewrite TrimPrefix_app.
    destruct (strings.HasPrefix t "/") eqn:Et; [|done].
    apply HasPrefix_true in Et as [u ->].
    change ("/" +:+ "/" +:+ u) with ("//" +:+ u) in H.
    by rewrite (HasPrefix_app "//" u) in H.
  - by rewrite TrimPrefix_id.
Qed.

Lemma HasPrefix_TrimSuffix (m suf : string) :
  strings.HasPrefix m "/" = false →
  strings.HasPrefix (strings.TrimSuffix m suf) "/" = false.
Proof.
  intros H. unfold strings.TrimSuffix.
  destruct (strings.HasSuffix m suf) eqn:E; [|done].
  apply HasSuffix_true in E as [t ->].
  rewrite length_app_str.
  replace (String.length t + String.length suf - String.length suf)
    with (String.length t) by lia.
  rewrite str_take_app.
  destruct (strings.HasPrefix t "/") eqn:Et; [|done].
  apply HasPrefix_true in Et as [u ->].
  by rewrite app_assoc_str, HasPrefix_app in H.
Qed.

(** Cleaning an already cleaned prefix changes nothing, provided the prefix
    given by the user does not begin with a doubled separator; [///] is
    cleaned to [//], which a second cleaning would turn into the empty
    prefix. *)
Theorem cleanPrefix_idempotent (p : string) :
  strings.HasPrefix p "//" = false →
  cleanPrefix (cleanPrefix p) = cleanPrefix p.
Proof.
  intros H%TrimPrefix_no_double.
  apply (HasPrefix_TrimSuffix _ "/") in H.
  assert (Hc : cleanPrefix p
               = if String.eqb (strings.TrimSuffix (strings.TrimPrefix p "/") "/") ""
                 then ""
                 else strings.TrimSuffix (strings.TrimPrefix p "/") "/" +:+ "/").
  { unfold cleanPrefix.
    by destruct (String.eqb_spec (strings.TrimSuffix (strings.TrimPrefix p "/") "/") "")
      as [-> |]. }
  rewrite Hc.
  remember (strings.TrimSuffix (strings.TrimPrefix p "/") "/") as q eqn:Eq.
  destruct (String.eqb_spec q "") as [Hq|Hq]; [done|].
  unfold cleanPrefix.
  destruct (HasPrefix_sep_false q H "/") as [H'|]; [|done].
  rewrite (TrimPrefix_id _ _ H'), TrimSuffix_app.
  by destruct (String.eqb_spec q "").
Qed.

Lemma cleanPrefix_idempotent_witness :
  cleanPrefix (cleanPrefix "/svc/app//") = cleanPrefix "/svc/app//"
  ∧ cleanPrefix (cleanPrefix "///") ≠ cleanPrefix "///".
Proof.
  split.
  - apply (cleanPrefix_idempotent "/svc/app//"). reflexivity.
  - discriminate.
Defined.

(** ** What [parseConfig] touches *)

Ltac split_results :=
  repeat match goal with
    | |- context [(parseJson ?w ?r ?k ?d)] =>
        destruct (parseJson w r k d) as [? [?|]]; simpl
    | |- context [(yamlToJson ?w ?f)] =>
        destruct (yamlToJson w f) as [? [?|]]; simpl
    end.

Ltac in_events :=
  rewrite ?elem_of_app, ?list_elem_of_singleton; tauto.

Lemma opened_paths_app (a b : list Event) :
  opened_paths (a ++ b) = opened_paths a ++ opened_paths b.
Proof. apply omap_app. Qed.

Lemma regular_paths_cons p f e rest :
  regular_paths ((p, f, e) :: rest)
  = match f with
    | Some fi => if IsRegular (Mode fi) then [p] else []
    | None => []
    end ++ regular_paths rest.
Proof.
  unfold regular_paths. simpl. destruct f as [fi|]; [|done].
  by destruct (IsRegular (Mode fi)).
Qed.

Lemma parseConfig_rest_trace w p fp err s :
  let s' := final_state (parseConfig_rest w p fp err s) in
  g_prefix s' = g_prefix s ∧ path s' = path s ∧ absPath s' = absPath s
  ∧ nArgs s' = nArgs s
  ∧ ∃ new, events s' = events s ++ new ∧ opened_paths new = [].
Proof.
  unfold_m. destruct (deriveKey_Some (absPath s) p) as [ks Hks].
  destruct err; simpl; rewrite Hks; simpl.
  all: destruct (formatOf (ToLower w p)); simpl; split_results.
  all: repeat (split; [reflexivity|]).
  all: rewrite <- ?app_assoc; eexists; split; reflexivity.
Qed.

Ltac rest_trace :=
  match goal with
  | |- context [parseConfig_rest ?w ?p ?fp ?e ?s] =>
      let H := fresh "H" in
      pose proof (parseConfig_rest_trace w p fp e s) as H;
      destruct (parseConfig_rest w p fp e s); simpl in *;
      destruct H as (-> & -> & -> & -> & ? & -> & ?)
  end.

Lemma parseConfig_trace w p f err s :
  let s' := final_state (parseConfig w p f err s) in
  g_prefix s' = g_prefix s ∧ path s' = path s ∧ absPath s' = absPath s
  ∧ nArgs s' = nArgs s
  ∧ ∃ new, events s' = events s ++ Log TraceL "Traversing %s" [AStr p] :: new
      ∧ opened_paths new
        = match f with
          | Some fi => if IsRegular (Mode fi) && Nat.eqb (nArgs s) 1
                       then [p] else []
          | None => []
          end.
Proof.
  unfold parseConfig, FileInfo_Mode, Open, Printf, emit, get, panic, mbind,
    mret, M_bind, M_ret, bind, ret.
  destruct f as [fi|]; simpl.
  2:{ repeat (split; [reflexivity|]). exists []. done. }
  destruct (IsRegular (Mode fi) && _); simpl.
  - destruct (os_Open w p); simpl; rest_trace.
    all: repeat (split; [reflexivity|]).
    all: rewrite <- ?app_assoc; eexists; (split; [reflexivity|]); simpl;
      congruence.
  - destruct (_ =? 0)%nat; simpl.
    2:{ repeat (split; [reflexivity|]). exists []. done. }
    rest_trace.
    all: repeat (split; [reflexivity|]).
    all: rewrite <- ?app_assoc; eexists; (split; [reflexivity|]); simpl;
      congruence.
Qed.

(** [parseConfig] changes nothing but the accumulation map and the log: the
    package variables [prefix], [path], [absPath] and [nArgs] are as before,
    whatever the outcome, and the log has only grown, its first new line
    being the trace line of the path. *)
Theorem parseConfig_frame (w : World) (p : string) (f : option FileInfo)
    (err : option error) (s : State) :
  let s' := final_state (parseConfig w p f err s) in
  g_prefix s' = g_prefix s ∧ path s' = path s ∧ absPath s' = absPath s
  ∧ nArgs s' = nArgs s
  ∧ ∃ new, events s' = events s ++ Log TraceL "Traversing %s" [AStr p] :: new.
Proof.
  destruct (parseConfig_trace w p f err s) as (? & ? & ? & ? & new & ? & _).
  repeat (split; [done|]). by exists new.
Qed.

(** During a walk in path mode the files opened are exactly the regular
    files among the entries visited so far, each once and in the order of
    the visits; directories and other non-regular entries are never opened.
    When the walk returns, all entries have been visited. *)
Theorem Walk_opens_regular (w : World)
    (visits : list (string * option FileInfo * option error)) (s : State) :
  nArgs s = 1 →
  let o := Walk_go visits (parseConfig w) s in
  ∃ k new, (k <= length visits)%nat
    ∧ events (final_state o) = events s ++ new
    ∧ opened_paths new = regular_paths (take k visits)
    ∧ (∀ r s', o = Ret r s' → k = length visits).
Proof.
  revert s. induction visits as [|[[p f] e] visits IH]; intros s Hn.
  - exists 0, []. simpl. rewrite app_nil_r. repeat split; done.
  - simpl. unfold mbind, M_bind, bind.
    pose proof (parseConfig_trace w p f e s) as Ht.
    pose proof (parseConfig_outcome w p f e s) as Ho.
    destruct (parseConfig w p f e s) as [r s1|c s1|s1]; simpl in Ht.
    + subst r. destruct Ht as (_ & _ & _ & Hn1 & new1 & Hev1 & Hop1).
      rewrite Hn in Hn1, Hop1.
      destruct (IH s1 Hn1) as (k & new2 & Hk & Hev2 & Hop2 & Hret).
      exists (S k), ((Log TraceL "Traversing %s" [AStr p] :: new1) ++ new2).
      split; [simpl; lia|]. split.
      { rewrite Hev2, Hev1. by rewrite <- app_assoc. }
      split.
      { simpl take. rewrite regular_paths_cons, opened_paths_app, Hop2.
        f_equal. simpl. rewrite Hop1. destruct f as [fi|]; [|done].
        by rewrite andb_true_r. }
      intros r s' Hr. simpl. f_equal. by eapply Hret.
    + destruct Ht as (_ & _ & _ & _ & new1 & Hev1 & Hop1).
      exists 1, (Log TraceL "Traversing %s" [AStr p] :: new1).
      split; [simpl; lia|]. split; [done|]. split; [|done].
      simpl take. rewrite regular_paths_cons. simpl. rewrite Hop1, Hn.
      destruct f as [fi|]; [|done]. by rewrite andb_true_r, app_nil_r.
    + destruct Ht as (_ & _ & _ & _ & new1 & Hev1 & Hop1).
      exists 1, (Log TraceL "Traversing %s" [AStr p] :: new1).
      split; [simpl; lia|]. split; [done|]. split; [|done].
      simpl take. rewrite regular_paths_cons. simpl. rewrite Hop1, Hn.
      destruct f as [fi|]; [|done]. by rewrite andb_true_r, app_nil_r.
Qed.

Lemma Walk_opens_regular_witness :
  ∃ k new, (k <= 3)%nat
    ∧ events (final_state
                (Walk_go (Walk_visits (demo_world None) "/data")
                   (parseConfig (demo_world None)) walking))
      = events walking ++ new
    ∧ opened_paths new
      = regular_paths (take k (Walk_visits (demo_world None) "/data"))
    ∧ (∀ r s', Walk_go (Walk_visits (demo_world None) "/data")
                 (parseConfig (demo_world None)) walking = Ret r s' →
               k = 3).
Proof.
  apply (Walk_opens_regular (demo_world None)
           (Walk_visits (demo_world None) "/data") walking).
  reflexivity.
Defined.

Lemma parseConfig_err_unused w p f err err' s :
  nArgs s = 1 → parseConfig w p f err s = parseConfig w p f err' s.
Proof.
  intros Hn. unfold parseConfig, FileInfo_Mode, Open, Printf, emit, get,
    panic, mbind, mret, M_bind, M_ret, bind, ret.
  destruct f as [fi|]; simpl; [|done]. rewrite Hn. simpl.
  by destruct (IsRegular (Mode fi)).
Qed.

(** In path mode the error that [filepath.Walk] hands to the callback is
    never looked at: [parseConfig] behaves the same whatever that error is
    (for a regular file it is overwritten by the result of [os.Open], for
    any other entry the function returns at once), and so does the whole
    walk.  An entry that the walk itself could not read is thus skipped
    without a log line of its own. *)
Theorem Walk_ignores_err (w : World)
    (visits : list (string * option FileInfo * option error)) (s : State) :
  nArgs s = 1 →
  (∀ p f err err', parseConfig w p f err s = parseConfig w p f err' s)
  ∧ Walk_go visits (parseConfig w) s
    = Walk_go ((λ v, (v.1, None)) <$> visits) (parseConfig w) s.
Proof.
  intros Hn. split; [intros; by apply parseConfig_err_unused|].
  revert s Hn. induction visits as [|[[p f] e] visits IH]; intros s Hn; [done|].
  simpl. unfold mbind, M_bind, bind.
  rewrite (parseConfig_err_unused w p f e None s Hn).
  pose proof (parseConfig_trace w p f None s) as Ht.
  destruct (parseConfig w p f None s) as [r s1|c s1|s1]; simpl in Ht;
    try done.
  destruct r; [done|]. apply IH. destruct Ht as (_ & _ & _ & -> & _). done.
Qed.

Lemma Walk_ignores_err_witness :
  Walk_go [("/data/sub", Some directory, Some "permission denied")]
    (parseConfig (demo_world None)) walking
  = Walk_go [("/data/sub", Some directory, None)]
      (parseConfig (demo_world None)) walking.
Proof.
  apply (proj2 (Walk_ignores_err (demo_world None)
                  [("/data/sub", Some directory, Some "permission denied")]
                  walking eq_refl)).
Defined.

(** ** Which key prefix the parser is given *)

Lemma parseConfig_rest_parsed w p fp err s :
  ∃ new, events (final_state (parseConfig_rest w p fp err s)) = events s ++ new
    ∧ Forall (λ ev, ∀ r ks, ev = Parsed r ks →
                deriveKey (absPath s) p = Some ks) new.
Proof.
  unfold_m. destruct (deriveKey_Some (absPath s) p) as [ks Hks].
  destruct err; simpl; rewrite Hks; simpl.
  all: destruct (formatOf (ToLower w p)); simpl; split_results.
  all: rewrite <- ?app_assoc; eexists; (split; [reflexivity|]).
  all: repeat constructor; intros ? ? [=]; by subst.
Qed.

Lemma parseConfig_parsed w p f err s :
  ∃ new, events (final_state (parseConfig w p f err s)) = events s ++ new
    ∧ Forall (λ ev, ∀ r ks, ev = Parsed r ks →
                deriveKey (absPath s) p = Some ks) new.
Proof.
  unfold parseConfig, FileInfo_Mode, Open, Printf, emit, get, panic, mbind,
    mret, M_bind, M_ret, bind, ret.
  destruct f as [fi|]; simpl.
  2:{ eexists. split; [reflexivity|]. repeat constructor. intros ? ? [=]. }
  destruct (IsRegular (Mode fi) && _); simpl.
  - destruct (os_Open w p); simpl.
    all: match goal with |- context [parseConfig_rest ?w ?p ?fp ?e ?s] =>
           destruct (parseConfig_rest_parsed w p fp e s) as (new & Hev & Hall);
           destruct (parseConfig_rest w p fp e s) end; simpl in *.
    all: rewrite Hev, <- ?app_assoc; eexists; (split; [reflexivity|]).
    all: repeat (constructor; [intros ? ? [=]|]); done.
  - destruct (_ =? 0)%nat; simpl.
    2:{ eexists. split; [reflexivity|]. repeat constructor. intros ? ? [=]. }
    match goal with |- context [parseConfig_rest ?w ?p ?fp ?e ?s] =>
      destruct (parseConfig_rest_parsed w p fp e s) as (new & Hev & Hall);
      destruct (parseConfig_rest w p fp e s) end; simpl in *.
    all: rewrite Hev, <- ?app_assoc; eexists; (split; [reflexivity|]).
    all: repeat (constructor; [intros ? ? [=]|]); done.
Qed.

(** Every call of [parseJson] made during a walk is given the key prefix
    derived from the path of one of the visited entries relative to the
    value of [absPath] at the start of the walk: the root is not
    re-derived or changed along the way. *)
Theorem Walk_keys_relative (w : World)
    (visits : list (string * option FileInfo * option error)) (s : State) :
  ∃ new,
    events (final_state (Walk_go visits (parseConfig w) s)) = events s ++ new
    ∧ Forall (λ ev, ∀ r ks, ev = Parsed r ks →
                ∃ v, v ∈ visits ∧ deriveKey (absPath s) v.1.1 = Some ks) new.
Proof.
  revert s. induction visits as [|[[p f] e] visits IH]; intros s.
  - exists []. simpl. by rewrite app_nil_r.
  - simpl. unfold mbind, M_bind, bind.
    destruct (parseConfig_parsed w p f e s) as (new1 & Hev1 & Hall1).
    pose proof (parseConfig_trace w p f e s) as (_ & _ & Habs & _).
    assert (Hhere : Forall (λ ev, ∀ r ks, ev = Parsed r ks →
              ∃ v, v ∈ (p, f, e) :: visits
                   ∧ deriveKey (absPath s) v.1.1 = Some ks) new1).
    { eapply Forall_impl; [exact Hall1|]. intros ev H r ks Hev.
      exists (p, f, e). split; [by left | by eapply H]. }
    destruct (parseConfig w p f e s) as [r s1|c s1|s1]; simpl in *.
    + destruct r as [err|]; simpl; [by exists new1|].
      destruct (IH s1) as (new2 & Hev2 & Hall2).
      exists (new1 ++ new2). split.
      { by rewrite Hev2, Hev1, app_assoc. }
      apply Forall_app. split; [done|].
      eapply Forall_impl; [exact Hall2|]. intros ev H r ks Hev.
      destruct (H r ks Hev) as (v & Hv & Hk). exists v.
      split; [by right | by rewrite <- Habs].
    + by exists new1.
    + by exists new1.
Qed.

(** ** Files that cannot be opened, and files that parse *)

(** A regular file that cannot be opened is not skipped: the failure is
    logged as a warning and the parser selected by the extension is still
    run, on a nil file, with the derived key prefix. *)
Theorem open_failure_not_skipped (w : World) (p : string) (fi : FileInfo)
    (err : option error) (s : State) (e : error) :
  nArgs s = 1 → IsRegular (Mode fi) = true → os_Open w p = inr e →
  let s' := final_state (parseConfig w p (Some fi) err s) in
  ∃ ks, deriveKey (absPath s) p = Some ks
    ∧ Log WarningL "%v: %v\n" [AStr p; AErr (Some e)] ∈ events s'
    ∧ (formatOf (ToLower w p) = JSON →
       Parsed (FileReader None) ks ∈ events s')
    ∧ (formatOf (ToLower w p) = YAML →
       Transcoded None ∈ events s'
       ∧ Parsed (PipeReader (yamlToJson w None).1) ks ∈ events s').
Proof.
  intros Hn Hr Ho. destruct (deriveKey_Some (absPath s) p) as [ks Hks].
  exists ks. split; [done|]. unfold_m. simpl. rewrite Hn, Hr, Ho. simpl.
  rewrite Hks. simpl.
  destruct (formatOf (ToLower w p)); simpl; split_results.
  all: split; [in_events|]; split; intros H; try discriminate H.
  all: try split; in_events.
Qed.

Lemma open_failure_not_skipped_witness :
  Log WarningL "%v: %v\n"
    [AStr "/data/app/db.json"; AErr (Some "permission denied")]
  ∈ events (final_state (parseConfig unreadable_world "/data/app/db.json"
                           (Some regular) None walking))
  ∧ Parsed (FileReader None) ["app"; "db"]
    ∈ events (final_state (parseConfig unreadable_world "/data/app/db.json"
                             (Some regular) None walking)).
Proof.
  destruct (open_failure_not_skipped unreadable_world "/data/app/db.json"
              regular None walking "permission denied")
    as (ks & Hks & Hw & Hj & _); [reflexivity..|].
  injection Hks as <-. split; [exact Hw|]. apply Hj. reflexivity.
Defined.

(** A regular file that opens is handed to the parser together with the
    derived key prefix, and what the parser makes of the accumulation map
    is the new map.  For JSON without a parse error nothing is logged as a
    warning or error; for YAML the parser reads what the transcoder wrote
    and [parseConfig] returns [nil] whether or not either of them failed. *)
Theorem parseConfig_parses_file (w : World) (p : string) (fi : FileInfo)
    (err : option error) (s : State) (fp : File) (ks : list string) :
  nArgs s = 1 → IsRegular (Mode fi) = true → os_Open w p = inl fp →
  deriveKey (absPath s) p = Some ks →
  (formatOf (ToLower w p) = JSON →
   (parseJson w (FileReader (Some fp)) ks (data s)).2 = None →
   ∃ s' new, parseConfig w p (Some fi) err s = Ret None s'
     ∧ data s' = (parseJson w (FileReader (Some fp)) ks (data s)).1
     ∧ events s' = events s ++ new
     ∧ Parsed (FileReader (Some fp)) ks ∈ new
     ∧ existsb is_warning_log new = false
     ∧ existsb is_error_log new = false)
  ∧ (formatOf (ToLower w p) = YAML →
     ∃ s', parseConfig w p (Some fi) err s = Ret None s'
       ∧ data s'
         = (parseJson w (PipeReader (yamlToJson w (Some fp)).1) ks (data s)).1
       ∧ Transcoded (Some fp) ∈ events s').
Proof.
  intros Hn Hr Ho Hk. split.
  - intros Hf Hp. unfold_m. simpl. rewrite Hn, Hr, Ho. simpl. rewrite Hk.
    simpl. rewrite Hf. simpl. rewrite Hp. simpl.
    eexists. eexists. split; [reflexivity|]. simpl. split; [reflexivity|].
    rewrite <- ?app_assoc. split; [reflexivity|]. simpl.
    split; [|done]. apply list_elem_of_In. simpl. tauto.
  - intros Hf. unfold_m. simpl. rewrite Hn, Hr, Ho. simpl. rewrite Hk. simpl.
    rewrite Hf. simpl.
    destruct (yamlToJson w (Some fp)) as [wr [te|]]; simpl.
    all: destruct (parseJson w _ _ _) as [d [pe|]]; simpl.
    all: eexists; split; [reflexivity|]; simpl; split; [reflexivity|].
    all: in_events.
Qed.

Lemma parseConfig_parses_file_witness :
  ∃ s', parseConfig storing_world "/data/app/db.json" (Some regular) None
          walking = Ret None s'
        ∧ data s' = <["app/db" := []]> ∅.
Proof.
  destruct (parseConfig_parses_file storing_world "/data/app/db.json" regular
              None walking (OpenFile "/data/app/db.json") ["app"; "db"])
    as [Hjson _]; [reflexivity..|].
  destruct Hjson as (s' & new & Hrun & Hd & _); [reflexivity..|].
  exists s'. split; [exact Hrun | exact Hd].
Defined.

(** ** [main]: a root that cannot be examined, stdin mode, exit statuses *)

(** When [os.Stat] fails on the absolute root path the run ends on the
    fatal path with status 1, the error being the last line logged, before
    the walk has started: nothing has been opened or parsed. *)
Theorem bad_root_is_fatal (w : World) (fl : Flags) (arg : string) (e : error) :
  os_Stat w (filepath_Abs w arg) = Some e →
  ∃ s', run w fl [arg] = Exit 1 s' ∧ no_work s'
        ∧ absPath s' = filepath_Abs w arg
        ∧ last (events s') = Some (Log ErrorL "%v" [AErr (Some e)]).
Proof.
  intros H. unfold run, main. unfold_m. simpl. rewrite H. simpl.
  eexists. split; [reflexivity|]. simpl. done.
Qed.

Lemma bad_root_is_fatal_witness :
  ∃ s', run missing_world (no_flags "") ["/nowhere"] = Exit 1 s'
        ∧ no_work s'.
Proof.
  destruct (bad_root_is_fatal missing_world (no_flags "") "/nowhere"
              "no such file or directory") as (s' & H1 & H2 & _);
    [reflexivity|].
  exists s'. split; [exact H1 | exact H2].
Defined.

(** Without -sync the process ends with one of four statuses: 0 when
    [main] returns, 1 on a fatal error or a missing -format, 255 on a
    wrong argument count, and 2 when the run panics. *)
Theorem main_exit_statuses (w : World) (fl : Flags) (args : list string) :
  sync fl = false →
  exit_code (run w fl args) = 0%Z ∨ exit_code (run w fl args) = 1%Z
  ∨ exit_code (run w fl args) = 2%Z ∨ exit_code (run w fl args) = 255%Z.
Proof.
  intros Hs. pose proof (exits_ok_main w fl args Hs initial) as Hex.
  unfold run. destruct (main w fl args initial) as [[] s'|c s'|s']; simpl;
    auto.
  destruct (Hex c s' eq_refl) as [-> | ->]; auto.
Qed.

Lemma main_exit_statuses_witness :
  exit_code (run (demo_world None) (no_flags "json") []) = 0%Z
  ∨ exit_code (run (demo_world None) (no_flags "json") []) = 1%Z
  ∨ exit_code (run (demo_world None) (no_flags "json") []) = 2%Z
  ∨ exit_code (run (demo_world None) (no_flags "json") []) = 255%Z.
Proof.
  apply (main_exit_statuses (demo_world None) (no_flags "json") []).
  reflexivity.
Defined.

(** In stdin mode the source that is parsed is [os.Stdin], with an empty
    key prefix, whether or not stdin is a regular file, and no file is
    opened during the whole run. *)
Theorem stdin_mode (w : World) (fl : Flags) (fi : FileInfo) :
  Stdin_Stat w = Some fi → sync fl = false →
  let s' := final_state (run w fl []) in
  (format fl = "json" → ToLower w ".json" = ".json" →
   Parsed (FileReader (Some Stdin)) [] ∈ events s')
  ∧ (format fl = "yaml" → ToLower w ".yaml" = ".yaml" →
     Transcoded (Some Stdin) ∈ events s'
     ∧ Parsed (PipeReader (yamlToJson w (Some Stdin)).1) [] ∈ events s')
  ∧ opened_paths (events s') = [].
Proof.
  intros Hst Hs. unfold run, main, usage, exportData. rewrite Hst, Hs.
  split; [|split].
  - intros -> Hl. change ("." +:+ "json") with ".json".
    unfold_m. simpl. rewrite andb_false_r, Hl. simpl.
    destruct (parseJson w _ _ _) as [d [pe|]]; simpl.
    + apply list_elem_of_In. simpl. tauto.
    + destruct (dump fl); simpl.
      * destruct (exportSlice _ _ _); simpl;
          [destruct (MarshalIndent w _)|]; simpl;
          apply list_elem_of_In; simpl; tauto.
      * apply list_elem_of_In; simpl; tauto.
  - intros -> Hl. change ("." +:+ "yaml") with ".yaml".
    unfold_m. simpl. rewrite andb_false_r, Hl. simpl.
    destruct (yamlToJson w (Some Stdin)) as [wr [te|]]; simpl.
    all: destruct (parseJson w _ _ _) as [d [pe|]]; simpl.
    all: destruct (dump fl); simpl.
    all: try (destruct (exportSlice _ _ _); simpl;
              [destruct (MarshalIndent w _)|]; simpl).
    all: split; apply list_elem_of_In; simpl; tauto.
  - destruct (String.eqb (format fl) "json" || String.eqb (format fl) "yaml")
      eqn:E.
    2:{ unfold_m. simpl. done. }
    unfold mbind, M_bind, bind, put, get, Printf, emit. simpl.
    match goal with |- context [parseConfig ?w ?p ?f ?e ?s] =>
      pose proof (parseConfig_trace w p f e s) as Ht;
      pose proof (parseConfig_outcome w p f e s) as Ho;
      destruct (parseConfig w p f e s) as [r s1|c s1|s1] end; simpl in Ht.
    all: destruct Ht as (_ & _ & _ & _ & new & Hev & Hop).
    all: simpl in Hev, Hop; rewrite ?andb_false_r in Hop.
    2,3: simpl; rewrite Hev; simpl; done.
    subst r. unfold_m. simpl.
    destruct (dump fl); simpl.
    + destruct (exportSlice _ _ _); simpl; [destruct (MarshalIndent w _)|];
        simpl.
      all: rewrite Hev, ?opened_paths_app; simpl;
        rewrite ?opened_paths_app, Hop; done.
    + rewrite Hev, ?opened_paths_app; simpl;
        rewrite ?opened_paths_app, Hop; done.
Qed.

Lemma stdin_mode_witness :
  Parsed (FileReader (Some Stdin)) []
  ∈ events (final_state (run (demo_world (Some directory)) (no_flags "json") [])).
Proof.
  apply (proj1 (stdin_mode (demo_world (Some directory)) (no_flags "json")
                  directory eq_refl eq_refl)); reflexivity.
Defined.

(** ** [exportData]: bounds, output and failure *)

Lemma exportLoop_bounds (enc : bytes -> string) (kvs : list (string * bytes))
    (filled : list (option kvExportEntry)) (n : nat) :
  exportLoop enc kvs (length filled) (filled ++ replicate n None)
  = if decide (length kvs <= n)%nat
    then Some (filled ++ (entryOf enc <$> kvs)
               ++ replicate (n - length kvs) None)
    else None.
Proof.
  revert filled n. induction kvs as [|[key val] kvs IH]; intros filled n.
  - cbn [exportLoop length fmap list_fmap]. case_decide; [|lia].
    by rewrite Nat.sub_0_r.
  - cbn [exportLoop]. destruct n as [|n].
    + cbn [replicate length]. rewrite app_nil_r.
      rewrite (decide_False (P := length filled < length filled)) by lia.
      case_decide; [lia|done].
    + rewrite decide_True by (rewrite length_app; simpl; lia).
      rewrite insert_app_r_alt by lia. rewrite Nat.sub_diag. simpl.
      specialize (IH (filled ++ [entryOf enc (key, val)]) n).
      rewrite length_app, <- !app_assoc in IH. simpl in IH.
      rewrite Nat.add_1_r in IH. refine (eq_trans IH _).
      cbn [length]. repeat case_decide; try lia; done.
Qed.

(** The store [exported[i] = ...] stays inside the slice exactly as long as
    the loop has yielded no more entries than the slice has slots: with at
    most [n] entries the slots beyond the last entry stay nil, with more
    than [n] the loop panics. *)
Theorem exportSlice_bounds (enc : bytes -> string) (n : nat)
    (kvs : list (string * bytes)) :
  ((length kvs <= n)%nat →
   exportSlice enc n kvs
   = Some ((entryOf enc <$> kvs) ++ replicate (n - length kvs) None))
  ∧ ((n < length kvs)%nat → exportSlice enc n kvs = None).
Proof.
  unfold exportSlice. pose proof (exportLoop_bounds enc kvs [] n) as H.
  simpl in H. rewrite H. split; intros Hn.
  - by rewrite decide_True.
  - by rewrite decide_False by lia.
Qed.

Lemma exportSlice_bounds_witness :
  exportSlice String.string_of_list_byte 3 order_ab
  = Some ((entryOf String.string_of_list_byte <$> order_ab) ++ [None])
  ∧ exportSlice String.string_of_list_byte 1 order_ab = None.
Proof.
  split.
  - apply (proj1 (exportSlice_bounds String.string_of_list_byte 3 order_ab)).
    simpl. lia.
  - apply (proj2 (exportSlice_bounds String.string_of_list_byte 1 order_ab)).
    simpl. lia.
Defined.

(** [exportData] never changes the accumulation map.  With any order the
    range loop may yield it does not panic; it writes the marshalled slice
    and then a newline, or, when marshalling fails, writes nothing and ends
    the run on the fatal path with status 1. *)
Theorem exportData_behaviour (w : World) (s : State) :
  rangeOf (data s) (rangeOrder w (data s)) →
  match MarshalIndent w (entryOf (encodeValue w) <$> rangeOrder w (data s)) with
  | inl json =>
      ∃ s', exportData w s = Ret tt s' ∧ data s' = data s
            ∧ events s' = events s ++ [Stdout json; Stdout ""]
  | inr e =>
      ∃ s', exportData w s = Exit 1 s' ∧ data s' = data s
            ∧ events s'
              = events s ++ [Log ErrorL "Error exporting data: %s"
                               [AErr (Some e)]]
  end.
Proof.
  unfold rangeOf. intros Hp.
  assert (Hlen : length (rangeOrder w (data s)) = size (data s)).
  { by rewrite Hp, length_map_to_list. }
  unfold exportData, Fatalf, Printf, os_Exit, emit, get, mbind, mret, M_bind,
    M_ret, bind, ret.
  rewrite <- Hlen, exportSlice_fills.
  destruct (MarshalIndent w _) as [json|e]; simpl.
  - eexists. split; [reflexivity|]. split; [done|]. simpl.
    by rewrite <- app_assoc.
  - eexists. split; [reflexivity|]. done.
Qed.

Lemma exportData_behaviour_witness :
  ∃ s', exportData (demo_world None) walking = Ret tt s'
        ∧ data s' = data walking
        ∧ events s' = events walking ++ [Stdout "[]"; Stdout ""].
Proof.
  apply (exportData_behaviour (demo_world None) walking).
  unfold rangeOf. reflexivity.
Defined.

(** ** The collapse of the key prefix on cleaned paths *)

Lemma doubledSep_two (a b : ascii) (r : string) :
  doubledSep (String a (String b r))
  = (IsPathSeparator a && IsPathSeparator b) || doubledSep (String b r).
Proof. reflexivity. Qed.

Lemma doubledSep_cons (c : ascii) (s : string) :
  doubledSep (String c s) = false →
  doubledSep s = false
  ∧ (IsPathSeparator c = true → strings.HasPrefix s "/" = false).
Proof.
  destruct s as [|b r]; [done|]. rewrite doubledSep_two.
  intros [H1 H2]%orb_false_iff. split; [done|]. intros Hc.
  rewrite Hc in H1. simpl in H1. rewrite HasPrefix_sep. exact H1.
Qed.

Lemma doubledSep_app (a b : string) :
  doubledSep (a +:+ b) = false → doubledSep a = false ∧ doubledSep b = false.
Proof.
  induction a as [|x a IH]; [done|]. rewrite app_cons. intros H.
  destruct (doubledSep_cons _ _ H) as [H' Hx]. destruct (IH H') as [Ha Hb].
  split; [|done]. destruct a as [|y a]; [done|].
  rewrite app_cons, doubledSep_two in H. rewrite doubledSep_two.
  apply orb_false_iff in H as [H1 _]. by rewrite H1, Ha.
Qed.

Lemma doubledSep_TrimPrefix (s pre : string) :
  doubledSep s = false → doubledSep (strings.TrimPrefix s pre) = false.
Proof.
  intros H. unfold strings.TrimPrefix.
  destruct (strings.HasPrefix s pre) eqn:E; [|done].
  apply HasPrefix_true in E as [t ->]. rewrite str_drop_app.
  by apply doubledSep_app in H as [_ ?].
Qed.

Lemma doubledSep_TrimSuffix (s suf : string) :
  doubledSep s = false → doubledSep (strings.TrimSuffix s suf) = false.
Proof.
  intros H. destruct (strings.HasSuffix s suf) eqn:E.
  - apply HasSuffix_true in E as [t ->]. rewrite TrimSuffix_app.
    by apply doubledSep_app in H as [? _].
  - by rewrite TrimSuffix_id.
Qed.

Lemma doubledSep_HasPrefix (s : string) :
  doubledSep s = false → strings.HasPrefix s "//" = false.
Proof.
  intros H. destruct (strings.HasPrefix s "//") eqn:E; [|done].
  apply HasPrefix_true in E as [t ->]. discriminate H.
Qed.

(** Without a doubled separator, and with a piece in progress or no
    separator ahead, every piece of the split but the last is non-empty. *)
Lemma split_go_inner (cur s : string) :
  doubledSep s = false →
  cur ≠ "" ∨ strings.HasPrefix s "/" = false →
  ∀ i, (S i < length (strings.split_go "/" 0 cur s))%nat →
       strings.split_go "/" 0 cur s !! i ≠ Some "".
Proof.
  revert cur. induction s as [|c s IH]; intros cur Hd Hcur i Hi.
  - simpl in Hi. lia.
  - rewrite split_sep_cons in *.
    destruct (doubledSep_cons _ _ Hd) as [Hd' Hsep].
    destruct (Ascii.eqb c "/") eqn:E.
    + destruct Hcur as [Hcur|Hcur]; [|by rewrite HasPrefix_sep, E in Hcur].
      destruct i as [|j]; [simpl; congruence|]. simpl in Hi |- *.
      apply IH; [done| |lia]. right. by apply Hsep.
    + apply IH; [done| |done]. left. by destruct cur.
Qed.

(** C5 (amended): for a file path that has no doubled separator after the
    root (the paths [filepath.Abs] and [filepath.Walk] produce, and the
    path of stdin mode), the derived sequence is replaced by the empty
    sequence exactly when it is a single empty-string segment; a derived
    sequence contains an empty string only as the last of several segments
    (a file whose name is only an extension), never as the first or a
    middle one. *)
Theorem deriveKey_collapse (absPath path : string) :
  doubledSep (strings.TrimPrefix path absPath) = false →
  (deriveKey absPath path = Some [] ↔ splitKey absPath path = [""])
  ∧ (∀ ks i, deriveKey absPath path = Some ks → ks !! i = Some "" →
       (1 <= i)%nat ∧ S i = length ks).
Proof.
  intros Hd.
  apply (doubledSep_TrimSuffix _ (filepath.Ext path)) in Hd.
  pose proof (TrimPrefix_no_double _ (doubledSep_HasPrefix _ Hd)) as Hpre.
  apply (doubledSep_TrimPrefix _ "/") in Hd.
  pose proof (split_go_inner "" _ Hd (or_intror Hpre)) as Hin.
  rewrite <- splitKey_unfold in Hin.
  unfold deriveKey, collapseKey.
  destruct (splitKey absPath path) as [|k0 rest] eqn:Es.
  { by destruct (Split_nonempty
      (strings.TrimPrefix
         (strings.TrimSuffix (strings.TrimPrefix path absPath)
            (filepath.Ext path)) (String PathSeparator ""))
      (String PathSeparator "")). }
  destruct (String.eqb_spec k0 "") as [->|Hk]; split.
  - split; [intros _|done]. destruct rest as [|k1 rest]; [done|].
    exfalso. apply (Hin 0); [simpl; lia | done].
  - intros ks i [= <-]. done.
  - split; [done|]. intros [= -> ->]. done.
  - intros ks i [= <-] Hi. split.
    + destruct i; [|lia]. simpl in Hi. congruence.
    + apply lookup_lt_Some in Hi as Hlt.
      destruct (decide (S i < length (k0 :: rest))%nat) as [Hlt'|]; [|lia].
      by destruct (Hin i Hlt').
Qed.

Lemma deriveKey_collapse_witness :
  (deriveKey "/data/db.json" "/data/db.json" = Some []
   ↔ splitKey "/data/db.json" "/data/db.json" = [""])
  ∧ (∀ ks i, deriveKey "/data" "/data/sub/.json" = Some ks →
       ks !! i = Some "" → (1 <= i)%nat ∧ S i = length ks).
Proof.
  split.
  - apply (proj1 (deriveKey_collapse "/data/db.json" "/data/db.json" eq_refl)).
  - apply (proj2 (deriveKey_collapse "/data" "/data/sub/.json" eq_refl)).
Defined.

(** C5, counterexample: under the root [/data] the walk can visit a file
    named [.json] in the directory [sub]; its path has no doubled
    separator, and it derives [sub] followed by an empty segment. *)
Lemma deriveKey_collapse_counterexample :
  doubledSep (strings.TrimPrefix "/data/sub/.json" "/data") = false
  ∧ deriveKey "/data" "/data/sub/.json" = Some ["sub"; ""]
  ∧ ¬ collapse_claimed "/data" "/data/sub/.json".
Proof.
  split; [reflexivity|]. split; [reflexivity|]. intros [_ H2].
  specialize (H2 ["sub"; ""] eq_refl). discriminate H2.
  apply list_elem_of_In. simpl. auto.
Qed.

(** ** What [parseConfig] returns and logs *)




